(** * PersonTracker: identity resolution over a flat L2 index

    Shallow embedding of [PersonTracker] from [datasciencetask.py]: the
    matching method [match_reid_embedding] and the per-detection body of
    the loop of [process_frame], which together assign a global identity
    to every appearance embedding.

    Embeddings are sequences of numbers.  The source holds them as
    float32 arrays; here the coordinates are rationals and the arithmetic
    is exact, so rounding, infinities and NaN are outside the model. *)

From Stdlib Require Import QArith Lqa Lia.
From stdpp Require Import base list relations.

Open Scope nat_scope.

(** ** Embeddings and exceptions *)

Definition Embedding := list Q.

(** [distance > threshold] on line 87 and the strict improvement test of
    the index scan, as boolean tests on rationals. *)
Definition Qgt_bool (a b : Q) : bool := negb (Qle_bool a b).
Definition Qlt_bool (a b : Q) : bool := negb (Qle_bool b a).

(** The one failure the index can raise: a vector whose length is not the
    width of the index. *)
Inductive exn := MalformedEmbedding.

Inductive result (A : Type) :=
| Ok (a : A)
| Raise (e : exn).
Arguments Ok {A} a.
Arguments Raise {A} e.

(** ** The similarity index

    [faiss.IndexFlatL2] is library code, not part of the repository. *)
Module IndexFlatL2.

Record t := mk { d : nat; xb : list Embedding }.

(** [faiss.IndexFlatL2(dimension)]: an empty index of width [dimension]. *)
Definition new (dimension : nat) : t := {| d := dimension; xb := [] |}.

Definition ntotal (self : t) : nat := length (xb self).

(** Modelled from the spec: the metric of the index, missing from the
    sources.  The spec's scenario measures squared L2 distance (0.01
    between [0,0,0,0] and [0,0,0,0.1]), the sum of the squared
    coordinate differences. *)
Fixpoint fvec_L2sqr (x y : Embedding) : Q :=
  match x, y with
  | a :: x', b :: y' => ((a - b) * (a - b) + fvec_L2sqr x' y')%Q
  | _, _ => 0%Q
  end.

(** Modelled from the spec: insertion into the index, missing from the
    sources.  The vector is appended and takes the next slot number; a
    vector of the wrong width is a run-time failure inside the index. *)
Definition add (self : t) (x : Embedding) : result t :=
  if length x =? d self then Ok {| d := d self; xb := xb self ++ [x] |}
  else Raise MalformedEmbedding.

(** The scan behind the query: [best] is the smallest distance so far
    with its slot, [i] the slot of the head of [xs].  A later slot
    replaces the best one only when it is strictly nearer. *)
Fixpoint scan (q : Embedding) (xs : list Embedding) (i : nat) (best : Q * nat)
  : Q * nat :=
  match xs with
  | [] => best
  | x :: xs' =>
      let dis := fvec_L2sqr q x in
      scan q xs' (S i) (if Qlt_bool dis (fst best) then (dis, i) else best)
  end.

(** Modelled from the spec: the query [search(x, 1)], missing from the
    sources.  It measures the distance from [x] to every indexed vector
    and yields the minimum with its slot, the lowest slot on a tie; a
    query of the wrong width is a run-time failure inside the distance
    computation.  The caller never queries an empty index; the model
    gives [None] there. *)
Definition search (self : t) (x : Embedding) : result (option (Q * nat)) :=
  if length x =? d self then
    match xb self with
    | [] => Ok None
    | x0 :: xs => Ok (Some (scan x xs 1 (fvec_L2sqr x x0, 0)))
    end
  else Raise MalformedEmbedding.

End IndexFlatL2.

(** ** The tracker state

    [person_embeddings] is a [defaultdict(list)]; a Python dict keeps its
    keys in insertion order, so it is an association list here. *)
Record PersonTracker := mkPersonTracker {
  dimension : nat;
  index : IndexFlatL2.t;
  person_embeddings : list (nat * list Embedding);
  next_id : nat
}.

(** [__init__], lines 40-45: the fields the resolver uses. *)
Definition __init__ : PersonTracker :=
  {| dimension := 512;
     index := IndexFlatL2.new 512;
     person_embeddings := [];
     next_id := 0 |}.

(** [person_embeddings[k].append(v)] on a [defaultdict(list)]: append to
    the list under [k], creating the key at the end when it is new. *)
Fixpoint defaultdict_append (dict : list (nat * list Embedding)) (k : nat)
    (v : Embedding) : list (nat * list Embedding) :=
  match dict with
  | [] => [(k, [v])]
  | (k', vs) :: dict' =>
      if k' =? k then (k', vs ++ [v]) :: dict'
      else (k', vs) :: defaultdict_append dict' k v
  end.

(** The default of the [threshold] argument, 0.7. *)
Definition default_threshold : Q := 7 # 10.

(** [match_reid_embedding], lines 83-89. [None] is Python's [None]. *)
Definition match_reid_embedding (self : PersonTracker) (embedding : Embedding)
    (threshold : Q) : result (option nat) :=
  if IndexFlatL2.ntotal (index self) =? 0 then Ok None
  else
    match IndexFlatL2.search (index self) embedding with
    | Raise e => Raise e
    | Ok None => Ok None
    | Ok (Some (distance, idx)) =>
        if Qgt_bool distance threshold then Ok None else Ok (Some idx)
    end.

(** The body of the loop of [process_frame], lines 112-117, for one
    embedding, with the threshold handed to [match_reid_embedding]
    ([process_frame] itself leaves it at its default).  The state comes
    back next to the outcome: an exception leaves the assignments made
    before it in place. *)
Definition resolve (self : PersonTracker) (embedding : Embedding)
    (threshold : Q) : PersonTracker * result nat :=
  match match_reid_embedding self embedding threshold with
  | Raise e => (self, Raise e)
  | Ok (Some matched_id) => (self, Ok matched_id)
  | Ok None =>
      let matched_id := next_id self in
      let self1 := {| dimension := dimension self;
                      index := index self;
                      person_embeddings := person_embeddings self;
                      next_id := next_id self + 1 |} in
      match IndexFlatL2.add (index self1) embedding with
      | Raise e => (self1, Raise e)
      | Ok index' =>
          ({| dimension := dimension self1;
              index := index';
              person_embeddings :=
                defaultdict_append (person_embeddings self1) matched_id embedding;
              next_id := next_id self1 |},
           Ok matched_id)
      end
  end.

(** The loop of [process_frame] over the embeddings of the detections, in
    order; an exception ends it. *)
Fixpoint run (self : PersonTracker) (threshold : Q) (embeddings : list Embedding)
    : PersonTracker * result (list nat) :=
  match embeddings with
  | [] => (self, Ok [])
  | e :: es =>
      match resolve self e threshold with
      | (self', Raise x) => (self', Raise x)
      | (self', Ok matched_id) =>
          match run self' threshold es with
          | (self'', Ok ids) => (self'', Ok (matched_id :: ids))
          | (self'', Raise x) => (self'', Raise x)
          end
      end
  end.

Definition process_frame (self : PersonTracker) (embeddings : list Embedding)
    : PersonTracker * result (list nat) :=
  run self default_threshold embeddings.

(** ** Runs of the resolver *)

(** One call of [resolve] that returns. *)
Definition step (st st' : PersonTracker) : Prop :=
  exists e t id, resolve st e t = (st', Ok id).

(** The states a session can be in: [__init__] followed by calls that return.
    An exception is not caught anywhere in the source and ends the
    session. *)
Definition reachable (st : PersonTracker) : Prop := rtc step __init__ st.

(** A session together with its minting log: for every slot of the index,
    in slot order, the identity returned by the call that created the
    slot and the embedding that call was given. *)
Inductive session : list (nat * Embedding) -> PersonTracker -> Prop :=
| session_init : session [] __init__
| session_resolve log st e t st' id :
    session log st ->
    resolve st e t = (st', Ok id) ->
    session
      (if IndexFlatL2.ntotal (index st) <? IndexFlatL2.ntotal (index st')
       then log ++ [(id, e)] else log)
      st'.

(** The state [resolve] leaves when it mints an identity for [e]. *)
Definition minted_state (st : PersonTracker) (e : Embedding) : PersonTracker :=
  {| dimension := dimension st;
     index := {| IndexFlatL2.d := IndexFlatL2.d (index st);
                 IndexFlatL2.xb := IndexFlatL2.xb (index st) ++ [e] |};
     person_embeddings := person_embeddings st ++ [(next_id st, [e])];
     next_id := next_id st + 1 |}.

(** [slot] is the nearest neighbour of [q] among [xs], at distance [dis]:
    the distance is that of the vector in the slot, no vector is nearer,
    and every earlier slot is strictly farther. *)
Definition is_nearest (q : Embedding) (xs : list Embedding) (dis : Q)
    (slot : nat) : Prop :=
  (exists x, xs !! slot = Some x /\ dis = IndexFlatL2.fvec_L2sqr q x) /\
  (forall j y, xs !! j = Some y -> (dis <= IndexFlatL2.fvec_L2sqr q y)%Q) /\
  (forall j y, j < slot -> xs !! j = Some y ->
     (dis < IndexFlatL2.fvec_L2sqr q y)%Q).

(** The number of identities a run over [es] mints from [__init__]. *)
Definition minted_count (threshold : Q) (es : list Embedding) : nat :=
  next_id (fst (run __init__ threshold es)).

(** A vector of the configured width for the examples: the given leading
    coordinates, then zeros. *)
Definition padded (coords : list Q) : Embedding :=
  coords ++ repeat 0%Q (512 - length coords).

(** The session after one person has been seen at the origin. *)
Definition origin : Embedding := padded [].

Definition one_person : PersonTracker :=
  fst (resolve __init__ origin default_threshold).

(** Four people in a plane, coordinates in tenths: the second stands
    exactly 2.0 from the first, the last two 1.5 from the second, more
    than 2.0 from the first and 2.4 from each other. *)
Definition four_points : list Embedding :=
  [padded [0%Q; 0%Q]; padded [20%Q; 0%Q];
   padded [29%Q; 12%Q]; padded [29%Q; (-12)%Q]].

(** The state after a minting call, as the code builds it. *)
Definition minted_raw (st : PersonTracker) (e : Embedding) : PersonTracker :=
  {| dimension := dimension st;
     index := {| IndexFlatL2.d := IndexFlatL2.d (index st);
                 IndexFlatL2.xb := IndexFlatL2.xb (index st) ++ [e] |};
     person_embeddings := defaultdict_append (person_embeddings st) (next_id st) e;
     next_id := next_id st + 1 |}.

(** The width of the index is the configured dimension, every stored
    vector has that width, the counter is the size of the index, and the
    store holds slot [i] under key [i] with the one vector of that slot. *)
Record Inv (st : PersonTracker) : Prop := {
  inv_dimension : dimension st = 512;
  inv_d : IndexFlatL2.d (index st) = dimension st;
  inv_width :
    Forall (fun x : Embedding => length x = dimension st)
      (IndexFlatL2.xb (index st));
  inv_next : next_id st = IndexFlatL2.ntotal (index st);
  inv_store :
    person_embeddings st =
      imap (fun i (x : Embedding) => (i, [x])) (IndexFlatL2.xb (index st))
}.

(** ** Sessions at one threshold

    [process_frame] never passes a threshold, so all calls of a session in
    the source share one. *)

(** One returning call with threshold [t]. *)
Definition step_at (t : Q) (st st' : PersonTracker) : Prop :=
  exists e id, resolve st e t = (st', Ok id).

Definition reachable_at (t : Q) (st : PersonTracker) : Prop :=
  rtc (step_at t) __init__ st.

(** ** The frame pipeline

    [get_reid_embedding], the whole of [process_frame], [process_video]
    and [display_sample_frame].  The detector, the cropping of the image,
    the ReID network and the drawing calls are library code; the pipeline
    takes them as parameters. *)
Module Boxes.

(** [results[0].boxes]: the corner coordinates of the detections and, when
    the tracker has assigned them, the track ids. *)
Record t := mk { xyxy : list (Q * Q * Q * Q); id : option (list Q) }.

End Boxes.

Module Pipeline.

Class Collaborators := {
  Frame : Type;
  Crop : Type;
  Detector : Type;
  (** [YOLO('yolov8n.pt')], line 35. *)
  detector_init : Detector;
  (** [self.detector.track(source=frame, persist=True, ...)], lines 93-99,
      followed by [results[0].boxes]; the tracker keeps its own state from
      frame to frame. *)
  track : Detector -> Frame -> Detector * Boxes.t;
  (** [frame[y1:y2, x1:x2]], line 110. *)
  crop_frame : Frame -> Z -> Z -> Z -> Z -> Crop;
  (** Lines 71-78, the body of the [try]: colour conversion, transform
      and the network; [None] when one of them raises. *)
  reid_forward : Crop -> option Embedding;
  (** [cv2.rectangle], line 118, with the two corners. *)
  rectangle : Frame -> Z * Z -> Z * Z -> Frame;
  (** [cv2.putText], lines 119-120, with the identity of the label and
      its position. *)
  putText : Frame -> nat -> Z * Z -> Frame
}.

(** Python's [int] on a float: truncation towards zero. *)
Definition int (q : Q) : Z := Z.quot (Qnum q) (Z.pos (Qden q)).

(** [get_reid_embedding], lines 69-81: the output of the network, or
    [np.zeros(self.dimension)] when anything in the [try] raised. *)
Definition get_reid_embedding `{Collaborators} (self : PersonTracker)
    (crop : Crop) : Embedding :=
  match reid_forward crop with
  | Some embedding => embedding
  | None => repeat 0%Q (dimension self)
  end.

(** The network, where it succeeds, yields vectors of the configured
    width. *)
Definition extractor_well_formed `{Collaborators} : Prop :=
  forall crop e, reid_forward crop = Some e -> length e = 512.

(** The loop of [process_frame], lines 108-120, over the zipped boxes and
    track ids.  The crop is taken from the frame as drawn on so far. *)
Fixpoint detections_loop `{Collaborators} (self : PersonTracker) (frame : Frame)
    (detections : list ((Q * Q * Q * Q) * Q))
    : (PersonTracker * Frame) * result unit :=
  match detections with
  | [] => ((self, frame), Ok tt)
  | (box, track_id) :: rest =>
      let '(bx1, by1, bx2, by2) := box in
      let x1 := int bx1 in
      let y1 := int by1 in
      let x2 := int bx2 in
      let y2 := int by2 in
      let person_crop := crop_frame frame x1 y1 x2 y2 in
      let embedding := get_reid_embedding self person_crop in
      match resolve self embedding default_threshold with
      | (self', Raise e) => ((self', frame), Raise e)
      | (self', Ok matched_id) =>
          detections_loop self'
            (putText (rectangle frame (x1, y1) (x2, y2)) matched_id
               (x1, (y1 - 10)%Z))
            rest
      end
  end.

(** [process_frame], lines 91-121. *)
Definition process_frame `{Collaborators} (self : PersonTracker)
    (detector : Detector) (frame : Frame)
    : (PersonTracker * Detector) * result Frame :=
  let '(detector', boxes) := track detector frame in
  if length (Boxes.xyxy boxes) =? 0 then ((self, detector'), Ok frame)
  else
    match Boxes.id boxes with
    | None => ((self, detector'), Ok frame)
    | Some track_ids =>
        match detections_loop self frame (zip (Boxes.xyxy boxes) track_ids) with
        | ((self', frame'), Ok _) => ((self', detector'), Ok frame')
        | ((self', _), Raise e) => ((self', detector'), Raise e)
        end
    end.

(** What [process_video] produces: the frames written to the output
    video, the frames displayed with their number, and [frame_count]. *)
Record Output `{Collaborators} := mkOutput {
  written : list Frame;
  displayed : list (nat * Frame);
  frame_count : nat
}.

(** The [while] loop of [process_video], lines 141-155, over the frames
    that [cap.read()] delivers; the loop ends when they run out. *)
Fixpoint frames_loop `{Collaborators} (tracker : PersonTracker)
    (detector : Detector) (frames : list Frame) (out : Output)
    : result Output :=
  match frames with
  | [] => Ok out
  | frame :: rest =>
      match process_frame tracker detector frame with
      | (_, Raise e) => Raise e
      | ((tracker', detector'), Ok processed_frame) =>
          frames_loop tracker' detector' rest
            {| written := written out ++ [processed_frame];
               displayed :=
                 if frame_count out mod 50 =? 0
                 then displayed out ++ [(frame_count out, processed_frame)]
                 else displayed out;
               frame_count := frame_count out + 1 |}
      end
  end.

(** [process_video], lines 124-159: [opened] is [cap.isOpened()] after the
    capture has been created.  A video that cannot be opened gives no
    output at all. *)
Definition process_video `{Collaborators} (opened : bool) (frames : list Frame)
    : option (result Output) :=
  let tracker := __init__ in
  if negb opened then None
  else
    Some (frames_loop tracker detector_init frames
            {| written := []; displayed := []; frame_count := 0 |}).

(** [display_sample_frame], lines 173-183: the frame at position 100 of
    the video, if the read succeeds. *)
Definition display_sample_frame `{Collaborators} (frames : list Frame)
    : option Frame :=
  frames !! 100.

(** Collaborators for the examples: a frame is the list of labels drawn
    on it, the detector reports one box with a track id in every frame,
    and the network always fails. *)
Definition blind_camera : Collaborators :=
  {| Frame := list nat;
     Crop := unit;
     Detector := unit;
     detector_init := tt;
     track := fun det _ =>
       (det, {| Boxes.xyxy := [(1 # 2, 3 # 2, 10, 20)%Q]; Boxes.id := Some [1%Q] |});
     crop_frame := fun _ _ _ _ _ => tt;
     reid_forward := fun _ => None;
     rectangle := fun frame _ _ => frame;
     putText := fun frame label _ => frame ++ [label] |}.

(** Collaborators whose network yields a vector of width 1. *)
Definition narrow_camera : Collaborators :=
  {| Frame := list nat;
     Crop := unit;
     Detector := unit;
     detector_init := tt;
     track := fun det _ =>
       (det, {| Boxes.xyxy := [(0, 0, 10, 20)%Q]; Boxes.id := Some [1%Q] |});
     crop_frame := fun _ _ _ _ _ => tt;
     reid_forward := fun _ => Some [1%Q];
     rectangle := fun frame _ _ => frame;
     putText := fun frame label _ => frame ++ [label] |}.

End Pipeline.

(** ** Rational comparisons *)

Lemma Qgt_bool_true a b : Qgt_bool a b = true <-> (b < a)%Q.
Proof.
  unfold Qgt_bool. rewrite negb_true_iff, <- not_true_iff_false, Qle_bool_iff.
  split; [apply Qnot_le_lt | apply Qlt_not_le].
Qed.

Lemma Qgt_bool_false a b : Qgt_bool a b = false <-> (a <= b)%Q.
Proof.
  unfold Qgt_bool. rewrite negb_false_iff. apply Qle_bool_iff.
Qed.

Lemma Qlt_bool_true a b : Qlt_bool a b = true <-> (a < b)%Q.
Proof. apply Qgt_bool_true. Qed.

Lemma Qlt_bool_false a b : Qlt_bool a b = false <-> (b <= a)%Q.
Proof. apply Qgt_bool_false. Qed.

(** ** The metric *)

Lemma Qsquare_nonneg (c : Q) : (0 <= c * c)%Q.
Proof.
  destruct (Qlt_le_dec c 0).
  - assert (E : (c * c == (- c) * (- c))%Q) by ring.
    rewrite E. apply Qmult_le_0_compat; lra.
  - apply Qmult_le_0_compat; lra.
Qed.

Lemma fvec_L2sqr_nonneg x y : (0 <= IndexFlatL2.fvec_L2sqr x y)%Q.
Proof.
  revert y. induction x as [|a x IH]; intros [|b y]; simpl; try lra.
  specialize (IH y). pose proof (Qsquare_nonneg (a - b)). lra.
Qed.

Lemma fvec_L2sqr_self x : (IndexFlatL2.fvec_L2sqr x x == 0)%Q.
Proof.
  induction x as [|a x IH]; simpl; [reflexivity|]. rewrite IH. ring.
Qed.

(** ** The index query *)

Lemma is_nearest_snoc_better q pre x bd bs :
  is_nearest q pre bd bs ->
  (IndexFlatL2.fvec_L2sqr q x < bd)%Q ->
  is_nearest q (pre ++ [x]) (IndexFlatL2.fvec_L2sqr q x) (length pre).
Proof.
  intros (_ & Hmin & _) Hlt. repeat split.
  - exists x. by rewrite lookup_app_r, Nat.sub_diag by lia.
  - intros j y Hj. apply lookup_app_Some in Hj as [Hj | [_ Hj]].
    + specialize (Hmin j y Hj). lra.
    + apply list_lookup_singleton_Some in Hj as [_ <-]. lra.
  - intros j y Hj Hy. rewrite lookup_app_l in Hy by lia.
    specialize (Hmin j y Hy). lra.
Qed.

Lemma is_nearest_snoc_keep q pre x bd bs :
  is_nearest q pre bd bs ->
  (bd <= IndexFlatL2.fvec_L2sqr q x)%Q ->
  is_nearest q (pre ++ [x]) bd bs.
Proof.
  intros ((x0 & Hx0 & Hbd) & Hmin & Hfirst) Hle. repeat split.
  - exists x0. split; [|done]. by apply lookup_app_l_Some.
  - intros j y Hj. apply lookup_app_Some in Hj as [Hj | [_ Hj]].
    + by apply (Hmin j).
    + by apply list_lookup_singleton_Some in Hj as [_ <-].
  - intros j y Hj Hy. apply lookup_lt_Some in Hx0.
    rewrite lookup_app_l in Hy by lia. by apply (Hfirst j).
Qed.

Lemma scan_nearest q xs pre best :
  is_nearest q pre (fst best) (snd best) ->
  is_nearest q (pre ++ xs)
    (fst (IndexFlatL2.scan q xs (length pre) best))
    (snd (IndexFlatL2.scan q xs (length pre) best)).
Proof.
  revert pre best. induction xs as [|x xs IH]; intros pre best Hn; simpl.
  - by rewrite app_nil_r.
  - replace (pre ++ x :: xs) with ((pre ++ [x]) ++ xs)
      by (by rewrite <- app_assoc).
    replace (S (length pre)) with (length (pre ++ [x]))
      by (rewrite length_app; simpl; lia).
    apply IH. destruct best as [bd bs]; simpl in *.
    destruct (Qlt_bool (IndexFlatL2.fvec_L2sqr q x) bd) eqn:E; simpl.
    + apply Qlt_bool_true in E. by eapply is_nearest_snoc_better.
    + apply Qlt_bool_false in E. by apply is_nearest_snoc_keep.
Qed.

Lemma is_nearest_singleton q x :
  is_nearest q [x] (IndexFlatL2.fvec_L2sqr q x) 0.
Proof.
  repeat split.
  - by exists x.
  - intros j y Hj. apply list_lookup_singleton_Some in Hj as [_ <-]. lra.
  - intros j y Hj. lia.
Qed.

(** On a query of the right width, a non-empty index answers with its
    nearest neighbour. *)
Lemma search_nearest idx q :
  length q = IndexFlatL2.d idx ->
  IndexFlatL2.xb idx <> [] ->
  exists dis slot,
    IndexFlatL2.search idx q = Ok (Some (dis, slot)) /\
    is_nearest q (IndexFlatL2.xb idx) dis slot.
Proof.
  intros Hlen Hne. unfold IndexFlatL2.search.
  rewrite (proj2 (Nat.eqb_eq _ _) Hlen).
  destruct (IndexFlatL2.xb idx) as [|x0 xs]; [done|].
  pose proof (scan_nearest q xs [x0] (IndexFlatL2.fvec_L2sqr q x0, 0)
                (is_nearest_singleton q x0)) as Hs.
  simpl in Hs.
  destruct (IndexFlatL2.scan q xs 1 (IndexFlatL2.fvec_L2sqr q x0, 0))
    as [dis slot] eqn:E.
  exists dis, slot. by split.
Qed.

(** The nearest neighbour is unique: one slot, one distance. *)
Lemma is_nearest_unique q xs d1 s1 d2 s2 :
  is_nearest q xs d1 s1 -> is_nearest q xs d2 s2 -> s1 = s2 /\ (d1 == d2)%Q.
Proof.
  intros ((x1 & Hx1 & ->) & Hmin1 & Hfirst1) ((x2 & Hx2 & ->) & Hmin2 & Hfirst2).
  pose proof (Hmin1 _ _ Hx2) as H12. pose proof (Hmin2 _ _ Hx1) as H21.
  assert (s1 = s2) as ->.
  { destruct (Nat.lt_trichotomy s1 s2) as [Hlt | [-> | Hlt]]; [|done|].
    - specialize (Hfirst2 _ _ Hlt Hx1). lra.
    - specialize (Hfirst1 _ _ Hlt Hx2). lra. }
  split; [done | lra].
Qed.

(** ** One call of the resolver *)

Lemma ntotal_eqb_0 idx :
  (IndexFlatL2.ntotal idx =? 0) = true <-> IndexFlatL2.xb idx = [].
Proof.
  unfold IndexFlatL2.ntotal. rewrite Nat.eqb_eq. apply length_zero_iff_nil.
Qed.

Lemma match_empty st e t :
  IndexFlatL2.xb (index st) = [] -> match_reid_embedding st e t = Ok None.
Proof.
  intros H. unfold match_reid_embedding.
  by rewrite (proj2 (ntotal_eqb_0 _) H).
Qed.

Lemma match_nonempty st e t :
  IndexFlatL2.xb (index st) <> [] ->
  match_reid_embedding st e t =
    match IndexFlatL2.search (index st) e with
    | Raise x => Raise x
    | Ok None => Ok None
    | Ok (Some (distance, idx)) =>
        if Qgt_bool distance t then Ok None else Ok (Some idx)
    end.
Proof.
  intros H. unfold match_reid_embedding.
  destruct (IndexFlatL2.ntotal (index st) =? 0) eqn:E; [|done].
  by apply ntotal_eqb_0 in E.
Qed.

Lemma match_accept st e t dis slot :
  IndexFlatL2.xb (index st) <> [] ->
  IndexFlatL2.search (index st) e = Ok (Some (dis, slot)) ->
  (dis <= t)%Q ->
  match_reid_embedding st e t = Ok (Some slot).
Proof.
  intros Hne Hs Hle. rewrite match_nonempty, Hs by done.
  by rewrite (proj2 (Qgt_bool_false _ _) Hle).
Qed.

Lemma match_reject st e t dis slot :
  IndexFlatL2.search (index st) e = Ok (Some (dis, slot)) ->
  (t < dis)%Q ->
  match_reid_embedding st e t = Ok None.
Proof.
  intros Hs Hlt. unfold match_reid_embedding.
  destruct (IndexFlatL2.ntotal (index st) =? 0); [done|].
  by rewrite Hs, (proj2 (Qgt_bool_true _ _) Hlt).
Qed.

(** What a match tells about the index. *)
Lemma match_Some_inv st e t slot :
  match_reid_embedding st e t = Ok (Some slot) ->
  IndexFlatL2.xb (index st) <> [] /\
  exists dis, IndexFlatL2.search (index st) e = Ok (Some (dis, slot)) /\
              (dis <= t)%Q.
Proof.
  unfold match_reid_embedding.
  destruct (IndexFlatL2.ntotal (index st) =? 0) eqn:E; [done|].
  assert (IndexFlatL2.xb (index st) <> []) as Hne.
  { intros H. apply ntotal_eqb_0 in H. congruence. }
  destruct (IndexFlatL2.search (index st) e) as [[[dis idx]|]|]; try done.
  destruct (Qgt_bool dis t) eqn:G; [done|].
  intros [= ->]. split; [done|]. exists dis. split; [done|].
  by apply Qgt_bool_false.
Qed.

Lemma resolve_accept st e t slot :
  match_reid_embedding st e t = Ok (Some slot) ->
  resolve st e t = (st, Ok slot).
Proof. intros H. unfold resolve. by rewrite H. Qed.

Lemma resolve_mint st e t :
  match_reid_embedding st e t = Ok None ->
  length e = IndexFlatL2.d (index st) ->
  resolve st e t = (minted_raw st e, Ok (next_id st)).
Proof.
  intros H Hlen. unfold resolve, IndexFlatL2.add. rewrite H. simpl.
  by rewrite (proj2 (Nat.eqb_eq _ _) Hlen).
Qed.

(** A call that returns has either matched and left the state alone, or
    minted [next_id] for a vector of the right width. *)
Lemma resolve_Ok_inv st e t st' id :
  resolve st e t = (st', Ok id) ->
  (match_reid_embedding st e t = Ok (Some id) /\ st' = st) \/
  (match_reid_embedding st e t = Ok None /\
   length e = IndexFlatL2.d (index st) /\
   st' = minted_raw st e /\ id = next_id st).
Proof.
  unfold resolve, IndexFlatL2.add.
  destruct (match_reid_embedding st e t) as [[slot|]|]; simpl.
  - intros [= <- <-]. by left.
  - destruct (length e =? IndexFlatL2.d (index st)) eqn:E; [|done].
    apply Nat.eqb_eq in E. intros [= <- <-]. by right.
  - done.
Qed.

(** ** The session invariant *)

Lemma defaultdict_append_fresh dict k v :
  k ∉ dict.*1 -> defaultdict_append dict k v = dict ++ [(k, [v])].
Proof.
  induction dict as [|[k' vs] dict IH]; simpl; [done|].
  intros Hk. apply not_elem_of_cons in Hk as [Hne Hk].
  destruct (k' =? k) eqn:E; [apply Nat.eqb_eq in E; congruence|].
  by rewrite IH.
Qed.

Lemma store_keys (xs : list Embedding) :
  (imap (fun i (x : Embedding) => (i, [x])) xs).*1 = seq 0 (length xs).
Proof.
  rewrite fmap_imap. simpl.
  rewrite (imap_ext _ (fun i _ => i)) by done.
  apply list_eq. intros i.
  rewrite list_lookup_imap.
  destruct (xs !! i) as [x|] eqn:E; simpl.
  - symmetry. apply lookup_seq. split; [done|]. by eapply lookup_lt_Some.
  - symmetry. apply lookup_ge_None. rewrite length_seq.
    by apply lookup_ge_None in E.
Qed.

Lemma Inv_init : Inv __init__.
Proof. by constructor. Qed.

Lemma Inv_minted st e :
  Inv st -> length e = IndexFlatL2.d (index st) ->
  minted_raw st e = minted_state st e /\ Inv (minted_state st e).
Proof.
  intros [Hdim Hd Hw Hn Hs] Hlen.
  assert (minted_raw st e = minted_state st e) as Heq.
  { unfold minted_raw, minted_state. f_equal.
    apply defaultdict_append_fresh.
    rewrite Hs, store_keys, Hn. unfold IndexFlatL2.ntotal.
    rewrite elem_of_seq. lia. }
  split; [done|]. constructor; simpl; try done.
  - apply Forall_app. split; [done|]. apply Forall_singleton. congruence.
  - unfold IndexFlatL2.ntotal in *. simpl. rewrite length_app. simpl. lia.
  - rewrite imap_app, Hs. simpl. do 3 f_equal.
    rewrite Hn. unfold IndexFlatL2.ntotal. lia.
Qed.

Lemma Inv_step st st' : Inv st -> step st st' -> Inv st'.
Proof.
  intros HI (e & t & id & Hr).
  apply resolve_Ok_inv in Hr as [[_ ->] | (_ & Hlen & -> & _)]; [done|].
  destruct (Inv_minted st e HI Hlen) as [-> ?]. done.
Qed.

Lemma reachable_Inv st : reachable st -> Inv st.
Proof.
  revert st. apply (rtc_ind_r Inv __init__); [apply Inv_init|].
  intros y z _ Hstep HI. by eapply Inv_step.
Qed.

Lemma session_reachable log st : session log st -> reachable st.
Proof.
  induction 1 as [|log st e t st' id _ IH Hr]; [apply rtc_refl|].
  eapply rtc_r; [exact IH|]. by exists e, t, id.
Qed.

Lemma reachable_session st : reachable st -> exists log, session log st.
Proof.
  revert st. apply (rtc_ind_r (fun st => exists log, session log st) __init__).
  - exists []. constructor.
  - intros y z _ (e & t & id & Hr) [log Hs].
    eexists. by eapply session_resolve.
Qed.

Lemma session_Inv log st : session log st -> Inv st.
Proof. intros Hs. by eapply reachable_Inv, session_reachable. Qed.

(** The log of a session is the content of the index, slot by slot, each
    vector under its slot number. *)
Lemma session_log log st :
  session log st ->
  log = imap (fun i (x : Embedding) => (i, x)) (IndexFlatL2.xb (index st)).
Proof.
  induction 1 as [|log st e t st' id Hs IH Hr]; [done|].
  pose proof (session_Inv _ _ Hs) as HI.
  apply resolve_Ok_inv in Hr as [[_ ->] | (_ & Hlen & -> & ->)].
  - by rewrite Nat.ltb_irrefl.
  - unfold IndexFlatL2.ntotal. simpl. rewrite length_app. simpl.
    rewrite (proj2 (Nat.ltb_lt _ _)) by lia.
    rewrite imap_app, <- IH. simpl. do 3 f_equal.
    rewrite (inv_next _ HI). unfold IndexFlatL2.ntotal. lia.
Qed.

Lemma session_ids log st :
  session log st -> log.*1 = seq 0 (next_id st).
Proof.
  intros Hs. pose proof (session_Inv _ _ Hs) as HI.
  rewrite (session_log _ _ Hs), (inv_next _ HI). unfold IndexFlatL2.ntotal.
  by rewrite <- store_keys, !fmap_imap.
Qed.

(** ** Growth of the state *)

Lemma resolve_next_id st e t :
  next_id st <= next_id (fst (resolve st e t)) <= next_id st + 1.
Proof.
  unfold resolve.
  destruct (match_reid_embedding st e t) as [[slot|]|]; simpl; try lia.
  destruct (IndexFlatL2.add (index st) e); simpl; lia.
Qed.

Lemma steps_next_id st st' : rtc step st st' -> next_id st <= next_id st'.
Proof.
  induction 1 as [|x y z (e & t & id & Hr) _ IH]; [done|].
  pose proof (resolve_next_id x e t) as Hb. rewrite Hr in Hb. simpl in Hb. lia.
Qed.

(** The index only grows at its end, and keeps its width. *)
Lemma steps_index st st' :
  rtc step st st' ->
  IndexFlatL2.d (index st') = IndexFlatL2.d (index st) /\
  exists more,
    IndexFlatL2.xb (index st') = IndexFlatL2.xb (index st) ++ more.
Proof.
  induction 1 as [|x y z (e & t & id & Hr) _ (Hd & more & IH)].
  - split; [done|]. exists []. by rewrite app_nil_r.
  - apply resolve_Ok_inv in Hr as [[_ ->] | (_ & _ & -> & _)].
    + split; [done|]. by exists more.
    + simpl in *. split; [done|]. exists (e :: more).
      by rewrite IH, <- app_assoc.
Qed.

(** When a call mints, every indexed vector is farther from the query
    than the threshold. *)
Lemma mint_all_far st e t y :
  match_reid_embedding st e t = Ok None ->
  length e = IndexFlatL2.d (index st) ->
  y ∈ IndexFlatL2.xb (index st) ->
  (t < IndexFlatL2.fvec_L2sqr e y)%Q.
Proof.
  intros Hm Hlen Hy.
  assert (IndexFlatL2.xb (index st) <> []) as Hne
    by (intros E; rewrite E in Hy; by apply not_elem_of_nil in Hy).
  destruct (search_nearest _ _ Hlen Hne) as (dis & slot & Hs & _ & Hmin & _).
  rewrite match_nonempty, Hs in Hm by done.
  destruct (Qgt_bool dis t) eqn:G; [|done].
  apply Qgt_bool_true in G.
  apply list_elem_of_lookup in Hy as [j Hj].
  specialize (Hmin j y Hj). lra.
Qed.

(** For a query of the width of the index, [match_reid_embedding] decides
    on the distance of the nearest neighbour. *)
Lemma match_by_nearest st e t dis slot :
  length e = IndexFlatL2.d (index st) ->
  is_nearest e (IndexFlatL2.xb (index st)) dis slot ->
  match_reid_embedding st e t =
    if Qgt_bool dis t then Ok None else Ok (Some slot).
Proof.
  intros Hlen Hn.
  assert (IndexFlatL2.xb (index st) <> []) as Hne.
  { destruct Hn as ((x & Hx & _) & _). intros E. by rewrite E in Hx. }
  destruct (search_nearest _ _ Hlen Hne) as (dis' & slot' & Hs & Hn').
  destruct (is_nearest_unique _ _ _ _ _ _ Hn Hn') as [<- Hd].
  rewrite match_nonempty, Hs by done.
  destruct (Qgt_bool dis t) eqn:G.
  - apply Qgt_bool_true in G.
    rewrite (proj2 (Qgt_bool_true dis' t)); [done | lra].
  - apply Qgt_bool_false in G.
    rewrite (proj2 (Qgt_bool_false dis' t)); [done | lra].
Qed.

(** ** The reference scenario *)

(** Threshold 0.7 on squared distances: the origin is new, a vector at
    squared distance 0.01 joins it, a far vector is new, and a vector at
    squared distance 0.04 from the origin joins the first identity again;
    the index ends with two vectors. *)
Example scenario_default_threshold :
  snd (process_frame __init__
         [origin; padded [0; 0; 0; 1 # 10]%Q; padded [5; 5; 5; 5]%Q;
          padded [0; 0; 0; 2 # 10]%Q]) = Ok [0; 0; 1; 0] /\
  IndexFlatL2.ntotal
    (index (fst (process_frame __init__
         [origin; padded [0; 0; 0; 1 # 10]%Q; padded [5; 5; 5; 5]%Q;
          padded [0; 0; 0; 2 # 10]%Q]))) = 2.
Proof. split; by vm_compute. Qed.

(** ** The nearest-neighbour query *)

(** C8. The query measures the squared L2 distance from the embedding to
    the indexed vectors and returns the slot and the distance of the
    minimum: the distance is that of the returned slot, no indexed vector
    is nearer, and a vector at exactly that distance sits in the same or
    a later slot, so a tie goes to the lowest slot.  On an empty index the
    query has no result, and [match_reid_embedding] returns [None]. *)
Theorem search_nearest_lowest_slot idx q :
  length q = IndexFlatL2.d idx ->
  match IndexFlatL2.xb idx with
  | [] =>
      IndexFlatL2.search idx q = Ok None /\
      forall st t, index st = idx -> match_reid_embedding st q t = Ok None
  | _ :: _ =>
      exists dis slot,
        IndexFlatL2.search idx q = Ok (Some (dis, slot)) /\
        slot < IndexFlatL2.ntotal idx /\
        (exists x, IndexFlatL2.xb idx !! slot = Some x /\
                   dis = IndexFlatL2.fvec_L2sqr q x) /\
        (forall j y, IndexFlatL2.xb idx !! j = Some y ->
                     (dis <= IndexFlatL2.fvec_L2sqr q y)%Q) /\
        (forall j y, IndexFlatL2.xb idx !! j = Some y ->
                     (IndexFlatL2.fvec_L2sqr q y == dis)%Q -> slot <= j)
  end.
Proof.
  intros Hlen. destruct (IndexFlatL2.xb idx) as [|x0 xs] eqn:E.
  - split.
    + unfold IndexFlatL2.search.
      by rewrite (proj2 (Nat.eqb_eq _ _) Hlen), E.
    + intros st t <-. by apply match_empty.
  - assert (IndexFlatL2.xb idx <> []) as Hne by (by rewrite E).
    destruct (search_nearest _ _ Hlen Hne)
      as (dis & slot & Hs & (x & Hx & Hd) & Hmin & Hfirst).
    rewrite E in *. exists dis, slot. repeat split; try done.
    + unfold IndexFlatL2.ntotal. rewrite E. by eapply lookup_lt_Some.
    + by exists x.
    + intros j y Hj Heq. destruct (Nat.le_gt_cases slot j) as [|Hlt]; [done|].
      specialize (Hfirst j y Hlt Hj). lra.
Qed.

Lemma search_nearest_lowest_slot_witness :
  exists dis,
    IndexFlatL2.search
      {| IndexFlatL2.d := 512;
         IndexFlatL2.xb := [padded [3%Q]; padded [1%Q]; padded [-1%Q]] |}
      (padded [0%Q]) = Ok (Some (dis, 1)).
Proof.
  pose proof (search_nearest_lowest_slot
    {| IndexFlatL2.d := 512;
       IndexFlatL2.xb := [padded [3%Q]; padded [1%Q]; padded [-1%Q]] |}
    (padded [0%Q]) eq_refl) as H.
  simpl in H. destruct H as (dis & slot & H & _).
  exists dis. rewrite H. vm_compute in H. by injection H as _ <-.
Defined.

(** ** Matching and minting *)

(** C2. In a session, for an embedding of the configured width, [resolve]
    accepts exactly when the index is non-empty and its nearest vector is
    within the threshold: it then returns the slot of that vector, which
    is the identity the store holds for the slot, and leaves the state as
    it is.  Otherwise, on an empty index or a nearest distance above the
    threshold, it returns [next_id], increments the counter and appends
    the embedding to the index and, under the new identity, to the store. *)
Theorem resolve_accepts_iff_near st e t :
  reachable st ->
  length e = dimension st ->
  (exists dis slot x,
     IndexFlatL2.xb (index st) <> [] /\
     is_nearest e (IndexFlatL2.xb (index st)) dis slot /\
     (dis <= t)%Q /\
     resolve st e t = (st, Ok slot) /\
     IndexFlatL2.xb (index st) !! slot = Some x /\
     person_embeddings st !! slot = Some (slot, [x]))
  \/
  ((IndexFlatL2.xb (index st) = [] \/
    exists dis slot,
      is_nearest e (IndexFlatL2.xb (index st)) dis slot /\ (t < dis)%Q) /\
   resolve st e t = (minted_state st e, Ok (next_id st))).
Proof.
  intros Hreach Hlen. pose proof (reachable_Inv _ Hreach) as HI.
  rewrite <- (inv_d _ HI) in Hlen.
  destruct (Inv_minted _ _ HI Hlen) as [Hraw _].
  destruct (IndexFlatL2.xb (index st)) as [|x0 xs] eqn:E.
  - right. split; [by left|].
    rewrite <- Hraw. apply resolve_mint; [|done]. by apply match_empty.
  - assert (IndexFlatL2.xb (index st) <> []) as Hne by (by rewrite E).
    destruct (search_nearest _ _ Hlen Hne) as (dis & slot & Hs & Hn).
    rewrite E in Hn.
    destruct (Qlt_le_dec t dis) as [Hlt | Hle].
    + right. split; [right; by exists dis, slot|].
      rewrite <- Hraw. apply resolve_mint; [|done]. by eapply match_reject.
    + left. destruct Hn as ((x & Hx & Hd) & Hmin & Hfirst).
      exists dis, slot, x. repeat split; try done.
      * by exists x.
      * apply resolve_accept. by eapply match_accept.
      * rewrite (inv_store _ HI), list_lookup_imap, E, Hx. done.
Qed.

Lemma resolve_accepts_iff_near_witness :
  resolve __init__ (padded []) default_threshold =
    (minted_state __init__ (padded []), Ok 0).
Proof.
  destruct (resolve_accepts_iff_near __init__ (padded []) default_threshold
              (rtc_refl _ _) eq_refl)
    as [(dis & slot & x & Hne & _) | [_ H]].
  - by destruct Hne.
  - exact H.
Defined.

(** C6. When the match is accepted, the index is non-empty and its
    nearest vector is within the threshold, the call returns the slot and
    leaves the index, the store and the counter as they were: nothing is
    inserted for the matched identity. *)
Theorem match_leaves_state st e t dis slot :
  length e = IndexFlatL2.d (index st) ->
  is_nearest e (IndexFlatL2.xb (index st)) dis slot ->
  (dis <= t)%Q ->
  snd (resolve st e t) = Ok slot /\
  index (fst (resolve st e t)) = index st /\
  person_embeddings (fst (resolve st e t)) = person_embeddings st /\
  next_id (fst (resolve st e t)) = next_id st.
Proof.
  intros Hlen Hn Hle.
  rewrite (resolve_accept st e t slot); [done|].
  rewrite (match_by_nearest _ _ _ _ _ Hlen Hn).
  by rewrite (proj2 (Qgt_bool_false _ _) Hle).
Qed.

Lemma match_leaves_state_witness :
  resolve one_person (padded [1 # 10]) default_threshold = (one_person, Ok 0).
Proof.
  pose proof (match_leaves_state one_person (padded [1 # 10])
                default_threshold _ 0 eq_refl
                (is_nearest_singleton (padded [1 # 10]) origin)) as H.
  destruct H as [H _]; [by vm_compute|].
  vm_compute in H. by vm_compute.
Defined.

(** ** Malformed embeddings *)

(** C3. In a session, an embedding whose length is not the configured
    dimension is rejected: the call raises [MalformedEmbedding], the loop
    over the detections ends with that error instead of a result, and the
    vector reaches neither the index nor the store. *)
Theorem resolve_rejects_malformed st e t :
  reachable st ->
  length e <> dimension st ->
  exists st',
    resolve st e t = (st', Raise MalformedEmbedding) /\
    index st' = index st /\
    person_embeddings st' = person_embeddings st /\
    forall es, run st t (e :: es) = (st', Raise MalformedEmbedding).
Proof.
  intros Hreach Hlen. pose proof (reachable_Inv _ Hreach) as HI.
  rewrite <- (inv_d _ HI) in Hlen.
  apply Nat.eqb_neq in Hlen.
  assert (exists st',
    resolve st e t = (st', Raise MalformedEmbedding) /\
    index st' = index st /\
    person_embeddings st' = person_embeddings st) as (st' & Hr & Hi & Hp).
  { unfold resolve.
    destruct (IndexFlatL2.xb (index st)) as [|x0 xs] eqn:E.
    - rewrite match_empty by done. unfold IndexFlatL2.add. simpl.
      rewrite Hlen. by eexists.
    - rewrite match_nonempty by (by rewrite E).
      unfold IndexFlatL2.search. rewrite Hlen. by eexists. }
  exists st'. repeat split; try done.
  intros es. simpl. by rewrite Hr.
Qed.

Lemma resolve_rejects_malformed_witness :
  snd (resolve __init__ [1%Q; 2%Q] default_threshold) = Raise MalformedEmbedding.
Proof.
  destruct (resolve_rejects_malformed __init__ [1%Q; 2%Q] default_threshold
              (rtc_refl _ _)) as (st' & H & _).
  - simpl. lia.
  - by rewrite H.
Defined.

(** On an empty index the counter has already advanced when the insertion
    fails: the rejected call uses up an identity. *)
Lemma resolve_malformed_empty_counter :
  next_id (fst (resolve __init__ [1%Q; 2%Q] default_threshold)) = 1.
Proof. reflexivity. Qed.

(** ** Session invariants *)

(** C9. After a call of a session returns, the index holds as many
    vectors as [next_id] counts; and when the call returned the slot of a
    match, that number is the identity of an earlier minting call and
    lies below [next_id]. *)
Theorem index_size_is_next_id log st e t st' id :
  session log st ->
  resolve st e t = (st', Ok id) ->
  IndexFlatL2.ntotal (index st') = next_id st' /\
  (match_reid_embedding st e t = Ok (Some id) ->
   id ∈ log.*1 /\ id < next_id st').
Proof.
  intros Hs Hr.
  assert (reachable st') as Hreach'.
  { eapply rtc_r; [by eapply session_reachable|]. by exists e, t, id. }
  split; [symmetry; apply (inv_next _ (reachable_Inv _ Hreach'))|].
  intros Hm. rewrite (resolve_accept _ _ _ _ Hm) in Hr.
  injection Hr as <-.
  pose proof (session_Inv _ _ Hs) as HI.
  apply match_Some_inv in Hm as (Hne & dis & Hsearch & _).
  assert (id < next_id st) as Hlt.
  { rewrite (inv_next _ HI).
    unfold IndexFlatL2.search in Hsearch.
    destruct (length e =? IndexFlatL2.d (index st)) eqn:El; [|done].
    apply Nat.eqb_eq in El.
    destruct (search_nearest _ _ El Hne) as (dis' & slot' & Hs' & (x & Hx & _) & _).
    unfold IndexFlatL2.search in Hs'.
    rewrite (proj2 (Nat.eqb_eq _ _) El) in Hs'.
    rewrite Hs' in Hsearch. injection Hsearch as _ ->.
    by eapply lookup_lt_Some. }
  split; [|done]. rewrite (session_ids _ _ Hs), elem_of_seq. lia.
Qed.

Lemma index_size_is_next_id_witness :
  IndexFlatL2.ntotal (index one_person) = next_id one_person.
Proof.
  apply (index_size_is_next_id [] __init__ origin default_threshold one_person 0
           session_init eq_refl).
Defined.

(** C4. In a session, slot [i] of the index holds the embedding of the
    call that created it, and the store has, at its [i]-th insertion
    position, the identity which that call returned. *)
Theorem slot_store_lockstep log st i :
  session log st ->
  i < IndexFlatL2.ntotal (index st) ->
  exists id e,
    log !! i = Some (id, e) /\
    IndexFlatL2.xb (index st) !! i = Some e /\
    (person_embeddings st).*1 !! i = Some id.
Proof.
  intros Hs Hi.
  pose proof (session_Inv _ _ Hs) as HI.
  apply lookup_lt_is_Some_2 in Hi as [e He].
  exists i, e. rewrite (session_log _ _ Hs), (inv_store _ HI).
  rewrite list_lookup_fmap, !list_lookup_imap, He. done.
Qed.

Lemma slot_store_lockstep_witness :
  (person_embeddings one_person).*1 !! 0 = Some 0.
Proof.
  destruct (slot_store_lockstep _ one_person 0
              (session_resolve [] __init__ origin default_threshold one_person 0
                 session_init eq_refl))
    as (id & e & Hl & _ & Hp).
  - vm_compute. lia.
  - vm_compute in Hl. injection Hl as <- _. exact Hp.
Defined.

(** C10. In a session the store has one entry for each minted identity,
    in minting order, and the entry holds exactly the one embedding given
    to the minting call; the keys are distinct and no entry has a second
    embedding. *)
Theorem store_one_embedding_per_identity log st :
  session log st ->
  person_embeddings st = (fun p : nat * Embedding => (p.1, [p.2])) <$> log /\
  NoDup (person_embeddings st).*1 /\
  forall id embs, (id, embs) ∈ person_embeddings st -> length embs = 1.
Proof.
  intros Hs.
  pose proof (session_Inv _ _ Hs) as HI.
  assert (person_embeddings st =
          (fun p : nat * Embedding => (p.1, [p.2])) <$> log) as Heq.
  { by rewrite (session_log _ _ Hs), (inv_store _ HI), fmap_imap. }
  split; [done|]. split.
  - rewrite (inv_store _ HI), store_keys. apply NoDup_seq.
  - intros id embs Hin. rewrite Heq in Hin.
    apply list_elem_of_fmap in Hin as ([id' e] & [= -> ->] & _). done.
Qed.

Lemma store_one_embedding_per_identity_witness :
  person_embeddings one_person = [(0, [origin])].
Proof.
  apply (store_one_embedding_per_identity _ one_person
           (session_resolve [] __init__ origin default_threshold one_person 0
              session_init eq_refl)).
Defined.

(** C7. In a session [next_id] never decreases, neither over the calls
    that follow nor in a single call that raises; the identities of the
    minting calls are pairwise different; their number is [next_id]; and
    each of them lies in the interval from [0] up to, not including,
    [next_id]. *)
Theorem next_id_counts_minted log st :
  session log st ->
  (forall st', rtc step st st' -> next_id st <= next_id st') /\
  (forall e t, next_id st <= next_id (fst (resolve st e t))) /\
  NoDup log.*1 /\
  length log = next_id st /\
  forall id, id ∈ log.*1 -> 0 <= id < next_id st.
Proof.
  intros Hs. pose proof (session_ids _ _ Hs) as Hids.
  split; [apply steps_next_id|].
  split; [intros e t; apply resolve_next_id|].
  split; [rewrite Hids; apply NoDup_seq|].
  split.
  - rewrite <- (length_fmap fst log), Hids. apply length_seq.
  - intros id. rewrite Hids, elem_of_seq. lia.
Qed.

Lemma next_id_counts_minted_witness : next_id one_person = 1.
Proof.
  symmetry.
  apply (next_id_counts_minted _ one_person
           (session_resolve [] __init__ origin default_threshold one_person 0
              session_init eq_refl)).
Defined.

(** ** Re-matching a stored embedding *)

(** C5. Once a call with a non-negative threshold [t] has minted an
    identity for [e] and inserted [e] into the index, a call with [e] and
    [t] at any later point of the session returns that identity and
    leaves the state, and with it the size of the index, as it is. *)
Theorem rematch_same_identity st e t st1 id st2 :
  reachable st ->
  (0 <= t)%Q ->
  resolve st e t = (st1, Ok id) ->
  IndexFlatL2.ntotal (index st1) = S (IndexFlatL2.ntotal (index st)) ->
  rtc step st1 st2 ->
  resolve st2 e t = (st2, Ok id) /\
  IndexFlatL2.ntotal (index (fst (resolve st2 e t))) =
    IndexFlatL2.ntotal (index st2).
Proof.
  intros Hreach Ht Hr Hgrow Hsteps.
  pose proof (reachable_Inv _ Hreach) as HI.
  apply resolve_Ok_inv in Hr as [[_ ->] | (Hm & Hlen & -> & ->)]; [lia|].
  destruct (steps_index _ _ Hsteps) as (Hd & more & Hxb). simpl in Hd, Hxb.
  pose proof (fvec_L2sqr_self e) as Hself.
  assert (is_nearest e (IndexFlatL2.xb (index st2))
            (IndexFlatL2.fvec_L2sqr e e)
            (length (IndexFlatL2.xb (index st)))) as Hn.
  { rewrite Hxb. repeat split.
    - exists e. split; [|done]. apply lookup_app_l_Some.
      by rewrite lookup_app_r, Nat.sub_diag by lia.
    - intros j y _. pose proof (fvec_L2sqr_nonneg e y). lra.
    - intros j y Hj Hy. rewrite <- app_assoc, lookup_app_l in Hy by done.
      apply list_elem_of_lookup_2 in Hy.
      pose proof (mint_all_far _ _ _ _ Hm Hlen Hy). lra. }
  assert (resolve st2 e t = (st2, Ok (next_id st))) as Hres.
  { apply resolve_accept.
    rewrite (match_by_nearest st2 e t _ _ (eq_trans Hlen (eq_sym Hd)) Hn).
    rewrite (proj2 (Qgt_bool_false _ _)) by lra.
    by rewrite (inv_next _ HI). }
  by rewrite Hres.
Qed.

Lemma rematch_same_identity_witness :
  resolve one_person origin default_threshold = (one_person, Ok 0).
Proof.
  apply (rematch_same_identity __init__ origin default_threshold one_person 0
           one_person (rtc_refl _ _)).
  - by vm_compute.
  - reflexivity.
  - reflexivity.
  - apply rtc_refl.
Defined.

(** ** The threshold *)

Lemma resolve_threshold_cases st e t1 t2 :
  (t1 <= t2)%Q ->
  resolve st e t2 = resolve st e t1 \/
  exists slot,
    match_reid_embedding st e t2 = Ok (Some slot) /\
    resolve st e t2 = (st, Ok slot) /\
    resolve st e t1 = (minted_raw st e, Ok (next_id st)).
Proof.
  intros Hle. unfold resolve, match_reid_embedding.
  destruct (IndexFlatL2.ntotal (index st) =? 0); [by left|].
  unfold IndexFlatL2.search, IndexFlatL2.add.
  destruct (length e =? IndexFlatL2.d (index st)) eqn:El; [|by left].
  destruct (IndexFlatL2.xb (index st)) as [|x0 xs]; [by left|].
  destruct (IndexFlatL2.scan e xs 1 (IndexFlatL2.fvec_L2sqr e x0, 0))
    as [dis slot].
  destruct (Qgt_bool dis t1) eqn:G1, (Qgt_bool dis t2) eqn:G2; simpl;
    rewrite ?El; try by left.
  - right. by exists slot.
  - apply Qgt_bool_false in G1. apply Qgt_bool_true in G2. lra.
Qed.

Lemma run_cons_state st t e es :
  fst (run st t (e :: es)) =
    match resolve st e t with
    | (st', Ok _) => fst (run st' t es)
    | (st', Raise _) => st'
    end.
Proof.
  simpl. destruct (resolve st e t) as [st' [id|x]]; [|done].
  by destruct (run st' t es) as [st'' [ids|x]].
Qed.

Lemma run_next_id st t es :
  next_id st <= next_id (fst (run st t es)) <= next_id st + length es.
Proof.
  revert st. induction es as [|e es IH]; intros st; [simpl; lia|].
  rewrite run_cons_state. pose proof (resolve_next_id st e t) as Hb.
  destruct (resolve st e t) as [st' [id|x]]; simpl in *; [|lia].
  specialize (IH st'). lia.
Qed.

(** From one state, two more calls cannot tell a larger threshold apart
    by a larger count. *)
Lemma run_two_monotone st t1 t2 es :
  (t1 <= t2)%Q ->
  length es <= 2 ->
  next_id (fst (run st t2 es)) <= next_id (fst (run st t1 es)).
Proof.
  intros Hle. revert st. induction es as [|e es IH]; intros st Hlen; [done|].
  simpl in Hlen. rewrite !run_cons_state.
  destruct (resolve_threshold_cases st e t1 t2 Hle)
    as [-> | (slot & _ & -> & ->)].
  - destruct (resolve st e t1) as [st' [id|x]]; [|done]. apply IH. lia.
  - pose proof (run_next_id st t2 es). pose proof (run_next_id (minted_raw st e) t1 es).
    simpl in *. lia.
Qed.

(** C1, as the code has it.  For thresholds [t1 <= t2], one call on one
    state with [t2] accepts every match the call with [t1] accepts, with
    the same result, and advances [next_id] no further than the call with
    [t1]; and a run of at most three embeddings from the initial state
    mints no more identities with [t2] than with [t1]. *)
Theorem threshold_monotone_one_call t1 t2 :
  (t1 <= t2)%Q ->
  (forall st e slot,
     match_reid_embedding st e t1 = Ok (Some slot) ->
     resolve st e t2 = resolve st e t1) /\
  (forall st e,
     next_id (fst (resolve st e t2)) <= next_id (fst (resolve st e t1))) /\
  (forall es, length es <= 3 -> minted_count t2 es <= minted_count t1 es).
Proof.
  intros Hle. split; [|split].
  - intros st e slot Hm.
    destruct (resolve_threshold_cases st e t1 t2 Hle)
      as [-> | (slot' & _ & _ & Hr)]; [done|].
    rewrite (resolve_accept _ _ _ _ Hm) in Hr. injection Hr as Hr _.
    apply (f_equal next_id) in Hr. simpl in Hr. lia.
  - intros st e.
    destruct (resolve_threshold_cases st e t1 t2 Hle)
      as [-> | (slot & _ & -> & ->)]; simpl; lia.
  - intros [|e es] Hlen; [done|]. simpl in Hlen.
    unfold minted_count. rewrite !run_cons_state.
    assert (resolve __init__ e t2 = resolve __init__ e t1) as ->
      by (unfold resolve; by rewrite !match_empty).
    destruct (resolve __init__ e t1) as [st' [id|x]]; [|done].
    apply run_two_monotone; [done | lia].
Qed.

Lemma threshold_monotone_one_call_witness :
  minted_count 400 [origin; padded [20%Q; 0%Q]; padded [29%Q; 12%Q]] <=
  minted_count 225 [origin; padded [20%Q; 0%Q]; padded [29%Q; 12%Q]].
Proof.
  apply (threshold_monotone_one_call 225 400).
  - by vm_compute.
  - simpl. lia.
Defined.

(** C1 as stated fails: over [four_points] the run with threshold 225
    mints two identities and the run with 400 mints three.  With 400 the
    second person is merged into the first and never enters the index, so
    the last two, each near the second only, are both new. *)
Lemma threshold_monotonicity_fails :
  (225 <= 400)%Q /\
  snd (run __init__ 225 four_points) = Ok [0; 1; 1; 1] /\
  snd (run __init__ 400 four_points) = Ok [0; 0; 1; 2] /\
  ~ minted_count 400 four_points <= minted_count 225 four_points.
Proof.
  split; [by vm_compute|]. split; [by vm_compute|]. split; [by vm_compute|].
  vm_compute. lia.
Qed.

(** ** Runs over several frames *)

Lemma run_Ok_cons st t e es st1 id st2 ids :
  resolve st e t = (st1, Ok id) ->
  run st1 t es = (st2, Ok ids) ->
  run st t (e :: es) = (st2, Ok (id :: ids)).
Proof. intros Hr Hrun. simpl. by rewrite Hr, Hrun. Qed.

Lemma run_Ok_inv st t e es st2 ids :
  run st t (e :: es) = (st2, Ok ids) ->
  exists st1 id ids',
    resolve st e t = (st1, Ok id) /\
    run st1 t es = (st2, Ok ids') /\ ids = id :: ids'.
Proof.
  simpl. destruct (resolve st e t) as [st1 [id|x]]; [|done].
  destruct (run st1 t es) as [st2' [ids'|x]] eqn:Hrun; [|done].
  intros [= <- <-]. exists st1, id, ids'. by rewrite Hrun.
Qed.


(** ** Embeddings of the configured width never raise *)

Lemma resolve_returns st e t :
  Inv st ->
  length e = dimension st ->
  exists st' id,
    resolve st e t = (st', Ok id) /\ Inv st' /\ id < next_id st' /\
    ((st' = st /\ id < next_id st) \/
     (next_id st' = S (next_id st) /\ id = next_id st)).
Proof.
  intros HI Hlen. rewrite <- (inv_d _ HI) in Hlen.
  destruct (match_reid_embedding st e t) as [[slot|]|x] eqn:Hm.
  - exists st, slot. rewrite (resolve_accept _ _ _ _ Hm).
    apply match_Some_inv in Hm as (Hne & dis & Hs & _).
    destruct (search_nearest _ _ Hlen Hne) as (dis' & slot' & Hs' & (y & Hy & _) & _).
    rewrite Hs' in Hs. injection Hs as _ ->.
    apply lookup_lt_Some in Hy.
    assert (slot < next_id st) by (by rewrite (inv_next _ HI)).
    split; [done|]. split; [done|]. split; [done|]. by left.
  - exists (minted_raw st e), (next_id st).
    rewrite (resolve_mint _ _ _ Hm Hlen).
    destruct (Inv_minted _ _ HI Hlen) as [-> HI'].
    split; [done|]. split; [done|]. split; [simpl; lia|]. right. simpl. lia.
  - exfalso. destruct (IndexFlatL2.xb (index st)) as [|x0 xs] eqn:E.
    + by rewrite match_empty in Hm.
    + assert (IndexFlatL2.xb (index st) <> []) as Hne by (by rewrite E).
      destruct (search_nearest _ _ Hlen Hne) as (dis & slot & Hs & _).
      rewrite match_nonempty, Hs in Hm by done.
      by destruct (Qgt_bool dis t).
Qed.

(** X2. From a state of a session, a run over embeddings that all have the
    configured width returns: it raises nothing, yields one identity per
    embedding, each below the final [next_id], and ends in a state of the
    session. *)
Theorem run_returns st t es :
  reachable st ->
  Forall (fun e : Embedding => length e = 512) es ->
  exists st' ids,
    run st t es = (st', Ok ids) /\
    reachable st' /\
    length ids = length es /\
    Forall (fun id => id < next_id st') ids.
Proof.
  intros Hreach Hes. revert st Hreach.
  induction Hes as [|e es He _ IH]; intros st Hreach.
  - exists st, []. by repeat split.
  - pose proof (reachable_Inv _ Hreach) as HI.
    rewrite <- (inv_dimension _ HI) in He.
    destruct (resolve_returns st e t HI He) as (st1 & id & Hr & _ & Hid & _).
    assert (reachable st1) as Hreach1.
    { eapply rtc_r; [exact Hreach|]. by exists e, t, id. }
    destruct (IH st1 Hreach1) as (st2 & ids & Hrun & Hreach2 & Hlen & Hall).
    exists st2, (id :: ids). rewrite (run_Ok_cons _ _ _ _ _ _ _ _ Hr Hrun).
    repeat split; try done; [simpl; lia|].
    constructor; [|done].
    pose proof (run_next_id st1 t es) as Hb. rewrite Hrun in Hb. simpl in Hb. lia.
Qed.

Lemma run_returns_witness :
  exists st' ids, run __init__ default_threshold four_points = (st', Ok ids).
Proof.
  destruct (run_returns __init__ default_threshold four_points (rtc_refl _ _))
    as (st' & ids & H & _).
  - repeat constructor.
  - by exists st', ids.
Defined.

(** ** The identities of a run *)

Lemma search_Ok_width idx e r :
  IndexFlatL2.search idx e = Ok r -> length e = IndexFlatL2.d idx.
Proof.
  unfold IndexFlatL2.search.
  destruct (length e =? IndexFlatL2.d idx) eqn:E; [|done].
  intros _. by apply Nat.eqb_eq.
Qed.

(** A returning call on a state with the invariant either matched an
    identity below [next_id] and changed nothing, or minted [next_id]. *)
Lemma resolve_Ok_step st e t st1 id :
  Inv st ->
  resolve st e t = (st1, Ok id) ->
  Inv st1 /\
  ((st1 = st /\ id < next_id st) \/
   (next_id st1 = S (next_id st) /\ id = next_id st)).
Proof.
  intros HI Hr.
  assert (length e = dimension st) as Hlen.
  { rewrite <- (inv_d _ HI).
    destruct (resolve_Ok_inv _ _ _ _ _ Hr) as [[Hm _] | (_ & Hlen & _)]; [|done].
    apply match_Some_inv in Hm as (_ & dis & Hs & _).
    by eapply search_Ok_width. }
  destruct (resolve_returns st e t HI Hlen) as (st' & id' & Hr' & HI' & _ & Hc).
  rewrite Hr in Hr'. injection Hr' as <- <-. by split.
Qed.

Lemma run_ids_range st t es st' ids :
  Inv st ->
  run st t es = (st', Ok ids) ->
  (forall id, id ∈ ids -> id < next_id st') /\
  (forall id, next_id st <= id < next_id st' -> id ∈ ids) /\
  (forall k id, ids !! k = Some id -> id <= next_id st + k).
Proof.
  revert st ids. induction es as [|e es IH]; intros st ids HI Hrun.
  - injection Hrun as <- <-. split; [|split].
    + intros id Hin. by apply elem_of_nil in Hin.
    + intros id Hid. lia.
    + intros k id Hk. by rewrite lookup_nil in Hk.
  - apply run_Ok_inv in Hrun as (st1 & id0 & ids' & Hr & Hrun & ->).
    destruct (resolve_Ok_step _ _ _ _ _ HI Hr) as [HI1 Hc].
    destruct (IH st1 ids' HI1 Hrun) as (Hbelow & Hall & Hpos).
    pose proof (run_next_id st1 t es) as Hb. rewrite Hrun in Hb. simpl in Hb.
    split; [|split].
    + intros id Hin. apply elem_of_cons in Hin as [-> | Hin]; [|by apply Hbelow].
      destruct Hc as [[-> ?] | [? ->]]; lia.
    + intros id Hid.
      destruct Hc as [[-> ?] | [Hn ->]].
      * apply elem_of_cons. right. by apply Hall.
      * apply elem_of_cons.
        destruct (decide (id = next_id st)) as [-> | Hne]; [by left|].
        right. apply Hall. lia.
    + intros [|k] id Hk; simpl in Hk.
      * injection Hk as <-. destruct Hc as [[-> ?] | [? ->]]; lia.
      * specialize (Hpos k id Hk). destruct Hc as [[-> ?] | [Hn ?]]; lia.
Qed.

(** X3. When a run from the initial state returns, the identities it
    returned are exactly the numbers below the final [next_id]: none is
    skipped and none lies beyond.  The identity at position [k] of the
    output is at most [k], and there are no more identities than
    embeddings. *)
Theorem fresh_run_identities t es st' ids :
  run __init__ t es = (st', Ok ids) ->
  (forall id, id ∈ ids <-> id < next_id st') /\
  (forall k id, ids !! k = Some id -> id <= k) /\
  next_id st' <= length es.
Proof.
  intros Hrun.
  destruct (run_ids_range _ _ _ _ _ Inv_init Hrun) as (Hbelow & Hall & Hpos).
  split; [|split].
  - intros id. split; [apply Hbelow|]. intros Hid. apply Hall. simpl. lia.
  - intros k id Hk. apply (Hpos k id Hk).
  - pose proof (run_next_id __init__ t es) as Hb.
    rewrite Hrun in Hb. simpl in Hb. lia.
Qed.

Lemma fresh_run_identities_witness :
  next_id (fst (run __init__ 225 four_points)) <= 4.
Proof.
  apply (fresh_run_identities 225 four_points
           (fst (run __init__ 225 four_points)) [0; 1; 1; 1]).
  by vm_compute.
Defined.

(** ** Stored vectors *)

Lemma fvec_L2sqr_sym x y :
  (IndexFlatL2.fvec_L2sqr x y == IndexFlatL2.fvec_L2sqr y x)%Q.
Proof.
  revert y. induction x as [|a x IH]; intros [|b y]; simpl; try reflexivity.
  rewrite (IH y). ring.
Qed.

Lemma reachable_at_reachable t st : reachable_at t st -> reachable st.
Proof.
  revert st. apply (rtc_ind_r reachable __init__); [apply rtc_refl|].
  intros y z _ (e & id & Hr) IH.
  eapply rtc_r; [exact IH|]. by exists e, t, id.
Qed.

(** In a session at threshold [t], a later slot is farther than [t] from
    every earlier one. *)
Lemma reachable_at_far t st i j x y :
  reachable_at t st ->
  i < j ->
  IndexFlatL2.xb (index st) !! i = Some x ->
  IndexFlatL2.xb (index st) !! j = Some y ->
  (t < IndexFlatL2.fvec_L2sqr y x)%Q.
Proof.
  intros Hreach. revert st Hreach i j x y.
  apply (rtc_ind_r
    (fun st => forall i j x y, i < j ->
       IndexFlatL2.xb (index st) !! i = Some x ->
       IndexFlatL2.xb (index st) !! j = Some y ->
       (t < IndexFlatL2.fvec_L2sqr y x)%Q) __init__); [done|].
  intros st0 st1 _ (e & id & Hr) IH i j x y Hij Hx Hy.
  apply resolve_Ok_inv in Hr as [[_ ->] | (Hm & Hlen & -> & _)]; [by apply (IH i j)|].
  simpl in Hx, Hy.
  apply lookup_app_Some in Hy as [Hy | [Hge Hy]].
  - pose proof (lookup_lt_Some _ _ _ Hy) as Hj.
    rewrite lookup_app_l in Hx by lia. by apply (IH i j).
  - apply list_lookup_singleton_Some in Hy as [Hj <-].
    rewrite lookup_app_l in Hx by lia.
    apply list_elem_of_lookup_2 in Hx. by eapply mint_all_far.
Qed.

(** X4. In a session whose calls all use the threshold [t], as those of
    [process_frame] do, any two vectors of the index are farther than [t]
    apart, in either order of the arguments of the metric; with [t] not
    negative they are different vectors. *)
Theorem stored_vectors_separated t st i j x y :
  reachable_at t st ->
  i <> j ->
  IndexFlatL2.xb (index st) !! i = Some x ->
  IndexFlatL2.xb (index st) !! j = Some y ->
  (t < IndexFlatL2.fvec_L2sqr x y)%Q /\
  (t < IndexFlatL2.fvec_L2sqr y x)%Q /\
  ((0 <= t)%Q -> x <> y).
Proof.
  intros Hreach Hij Hx Hy.
  assert (t < IndexFlatL2.fvec_L2sqr y x)%Q as Hfar.
  { destruct (Nat.lt_trichotomy i j) as [Hlt | [-> | Hlt]]; [|done|].
    - by eapply reachable_at_far.
    - rewrite fvec_L2sqr_sym. by eapply reachable_at_far. }
  split; [by rewrite fvec_L2sqr_sym|]. split; [done|].
  intros Ht ->. pose proof (fvec_L2sqr_self y). lra.
Qed.

Lemma stored_vectors_separated_witness :
  (225 < IndexFlatL2.fvec_L2sqr (padded [0%Q; 0%Q]) (padded [20%Q; 0%Q]))%Q.
Proof.
  apply (stored_vectors_separated 225
           (fst (run __init__ 225 [padded [0%Q; 0%Q]; padded [20%Q; 0%Q]]))
           0 1 (padded [0%Q; 0%Q]) (padded [20%Q; 0%Q])).
  - eapply rtc_l; [by exists (padded [0%Q; 0%Q]), 0|].
    eapply rtc_l; [by exists (padded [20%Q; 0%Q]), 1|].
    apply rtc_refl.
  - lia.
  - reflexivity.
  - reflexivity.
Defined.

(** A vector is its own nearest neighbour in a list where everything
    before it is farther from it than a non-negative [t]. *)
Lemma self_nearest xs e more t :
  (0 <= t)%Q ->
  (forall y, y ∈ xs -> (t < IndexFlatL2.fvec_L2sqr e y)%Q) ->
  is_nearest e (xs ++ e :: more) (IndexFlatL2.fvec_L2sqr e e) (length xs).
Proof.
  intros Ht Hfar. pose proof (fvec_L2sqr_self e) as Hself. repeat split.
  - exists e. split; [|done]. by rewrite list_lookup_middle.
  - intros j y _. pose proof (fvec_L2sqr_nonneg e y). lra.
  - intros j y Hj Hy. rewrite lookup_app_l in Hy by done.
    apply list_elem_of_lookup_2 in Hy. specialize (Hfar y Hy). lra.
Qed.

Lemma self_match st e t slot :
  (0 <= t)%Q ->
  length e = IndexFlatL2.d (index st) ->
  is_nearest e (IndexFlatL2.xb (index st)) (IndexFlatL2.fvec_L2sqr e e) slot ->
  resolve st e t = (st, Ok slot).
Proof.
  intros Ht Hlen Hn. apply resolve_accept.
  rewrite (match_by_nearest _ _ _ _ _ Hlen Hn).
  pose proof (fvec_L2sqr_self e).
  by rewrite (proj2 (Qgt_bool_false _ _)) by lra.
Qed.

(** X5. In a session whose calls all use one non-negative threshold,
    resolving a vector of the index again returns the number of its own
    slot, under which the store holds it, and changes nothing. *)
Theorem stored_vector_resolves_to_slot t st i x :
  reachable_at t st ->
  (0 <= t)%Q ->
  IndexFlatL2.xb (index st) !! i = Some x ->
  resolve st x t = (st, Ok i) /\
  person_embeddings st !! i = Some (i, [x]).
Proof.
  intros Hreach Ht Hx.
  pose proof (reachable_Inv _ (reachable_at_reachable _ _ Hreach)) as HI.
  split.
  - apply self_match; [done| |].
    + rewrite (inv_d _ HI).
      by apply (Forall_lookup_1 _ _ _ _ (inv_width _ HI) Hx).
    + pose proof (lookup_lt_Some _ _ _ Hx) as Hi.
      rewrite <- (take_drop_middle _ _ _ Hx).
      replace i with (length (take i (IndexFlatL2.xb (index st)))) at 3
        by (rewrite length_take; lia).
      apply (self_nearest _ _ _ t); [done|].
      intros y Hy. apply list_elem_of_lookup in Hy as [j Hj].
      pose proof (lookup_lt_Some _ _ _ Hj) as Hlt. rewrite length_take in Hlt.
      rewrite lookup_take_lt in Hj by lia.
      apply (reachable_at_far t st j i y x Hreach); [lia|done|done].
  - by rewrite (inv_store _ HI), list_lookup_imap, Hx.
Qed.

Lemma stored_vector_resolves_to_slot_witness :
  resolve one_person origin default_threshold = (one_person, Ok 0).
Proof.
  apply (stored_vector_resolves_to_slot default_threshold one_person 0 origin).
  - eapply rtc_l; [by exists origin, 0|]. apply rtc_refl.
  - by vm_compute.
  - reflexivity.
Defined.

Lemma resolve_repeat st e t st1 id :
  Inv st ->
  (0 <= t)%Q ->
  resolve st e t = (st1, Ok id) ->
  resolve st1 e t = (st1, Ok id).
Proof.
  intros HI Ht Hr.
  destruct (resolve_Ok_inv _ _ _ _ _ Hr) as [[_ ->] | (Hm & Hlen & -> & ->)];
    [done|].
  rewrite (inv_next _ HI). apply self_match; [done|done|]. simpl.
  apply (self_nearest _ _ _ t); [done|]. intros y Hy. by eapply mint_all_far.
Qed.

(** X6. A call that returns can be repeated at once: with a non-negative
    threshold the second call on the same embedding returns the same
    identity and leaves the state of the first, so that two equal
    detections in a row share one label and mint at most once. *)
Theorem resolve_idempotent st e t st1 id :
  reachable st ->
  (0 <= t)%Q ->
  resolve st e t = (st1, Ok id) ->
  resolve st1 e t = (st1, Ok id) /\
  run st t [e; e] = (st1, Ok [id; id]) /\
  next_id st1 <= next_id st + 1.
Proof.
  intros Hreach Ht Hr. pose proof (reachable_Inv _ Hreach) as HI.
  pose proof (resolve_repeat _ _ _ _ _ HI Ht Hr) as Hr1.
  split; [done|]. split; [simpl; by rewrite Hr, Hr1|].
  pose proof (resolve_next_id st e t) as Hb. rewrite Hr in Hb. simpl in Hb. lia.
Qed.

Lemma resolve_idempotent_witness :
  run __init__ default_threshold [origin; origin] = (one_person, Ok [0; 0]).
Proof.
  apply (resolve_idempotent __init__ origin default_threshold one_person 0
           (rtc_refl _ _)).
  - by vm_compute.
  - reflexivity.
Defined.

(** X7. Nothing is evicted or refreshed: a vector that sits in slot [i] of
    the index stays in slot [i] through all later calls of the session,
    and the store keeps it, alone, under the identity [i]. *)
Theorem stored_vectors_persist st st2 i x :
  reachable st ->
  rtc step st st2 ->
  IndexFlatL2.xb (index st) !! i = Some x ->
  IndexFlatL2.xb (index st2) !! i = Some x /\
  person_embeddings st2 !! i = Some (i, [x]).
Proof.
  intros Hreach Hsteps Hx.
  assert (reachable st2) as Hreach2 by (by eapply rtc_trans).
  pose proof (reachable_Inv _ Hreach2) as HI2.
  destruct (steps_index _ _ Hsteps) as (_ & more & Hxb).
  assert (IndexFlatL2.xb (index st2) !! i = Some x) as Hx2.
  { rewrite Hxb. by apply lookup_app_l_Some. }
  split; [done|]. by rewrite (inv_store _ HI2), list_lookup_imap, Hx2.
Qed.

Lemma stored_vectors_persist_witness :
  IndexFlatL2.xb
    (index (fst (run one_person default_threshold four_points))) !! 0 =
  Some origin.
Proof.
  apply (stored_vectors_persist one_person
           (fst (run one_person default_threshold four_points)) 0 origin).
  - eapply rtc_l; [by exists origin, default_threshold, 0|]. apply rtc_refl.
  - eapply rtc_l; [by exists (padded [0%Q; 0%Q]), default_threshold, 0|].
    eapply rtc_l; [by exists (padded [20%Q; 0%Q]), default_threshold, 1|].
    eapply rtc_l; [by exists (padded [29%Q; 12%Q]), default_threshold, 2|].
    eapply rtc_l; [by exists (padded [29%Q; (-12)%Q]), default_threshold, 3|].
    apply rtc_refl.
  - reflexivity.
Defined.

(** ** A negative threshold *)

Lemma match_negative st e t :
  Inv st ->
  (t < 0)%Q ->
  length e = dimension st ->
  match_reid_embedding st e t = Ok None.
Proof.
  intros HI Ht Hlen. rewrite <- (inv_d _ HI) in Hlen.
  destruct (IndexFlatL2.xb (index st)) as [|x0 xs] eqn:E;
    [by apply match_empty|].
  assert (IndexFlatL2.xb (index st) <> []) as Hne by (by rewrite E).
  destruct (search_nearest _ _ Hlen Hne) as (dis & slot & Hs & (y & _ & ->) & _).
  eapply match_reject; [exact Hs|].
  pose proof (fvec_L2sqr_nonneg e y). lra.
Qed.

(** X8. No distance is below zero, so with a negative threshold nothing
    ever matches: from a state of a session every embedding of the
    configured width is given a new identity, in order from [next_id]. *)
Theorem negative_threshold_always_mints st t es :
  reachable st ->
  (t < 0)%Q ->
  Forall (fun e : Embedding => length e = 512) es ->
  snd (run st t es) = Ok (seq (next_id st) (length es)) /\
  next_id (fst (run st t es)) = next_id st + length es.
Proof.
  intros Hreach Ht Hes. pose proof (reachable_Inv _ Hreach) as HI.
  clear Hreach. revert st HI.
  induction Hes as [|e es He _ IH]; intros st HI; [simpl; split; [done|lia]|].
  rewrite <- (inv_dimension _ HI) in He.
  pose proof (match_negative st e t HI Ht He) as Hm.
  rewrite <- (inv_d _ HI) in He.
  pose proof (resolve_mint st e t Hm He) as Hr.
  destruct (Inv_minted _ _ HI He) as [Hraw HI1]. rewrite <- Hraw in HI1.
  destruct (IH _ HI1) as [Hids Hn].
  rewrite run_cons_state, Hr, Hn. simpl. rewrite Hr.
  destruct (run (minted_raw st e) t es) as [st2 [ids|x]]; simpl in *; [|done].
  injection Hids as ->. split; [|lia].
  by replace (next_id st + 1) with (S (next_id st)) by lia.
Qed.

Lemma negative_threshold_always_mints_witness :
  snd (run __init__ (-1) four_points) = Ok [0; 1; 2; 3].
Proof.
  apply (negative_threshold_always_mints __init__ (-1) four_points
           (rtc_refl _ _)).
  - by vm_compute.
  - repeat constructor.
Defined.

(** ** What a returned identity means *)

(** X9. With a non-negative threshold, the identity a call of a session
    returns names a slot of the index whose vector is within the
    threshold of the embedding and is nearest to it among all indexed
    vectors; the store holds that vector under the identity.  (After a
    minting call the vector is the embedding itself.) *)
Theorem returned_identity_is_near st e t st' id :
  reachable st ->
  (0 <= t)%Q ->
  resolve st e t = (st', Ok id) ->
  exists x,
    IndexFlatL2.xb (index st') !! id = Some x /\
    person_embeddings st' !! id = Some (id, [x]) /\
    (IndexFlatL2.fvec_L2sqr e x <= t)%Q /\
    forall y, y ∈ IndexFlatL2.xb (index st') ->
      (IndexFlatL2.fvec_L2sqr e x <= IndexFlatL2.fvec_L2sqr e y)%Q.
Proof.
  intros Hreach Ht Hr. pose proof (reachable_Inv _ Hreach) as HI.
  destruct (resolve_Ok_step _ _ _ _ _ HI Hr) as [HI' _].
  assert (exists x,
    IndexFlatL2.xb (index st') !! id = Some x /\
    (IndexFlatL2.fvec_L2sqr e x <= t)%Q /\
    forall y, y ∈ IndexFlatL2.xb (index st') ->
      (IndexFlatL2.fvec_L2sqr e x <= IndexFlatL2.fvec_L2sqr e y)%Q)
    as (x & Hx & Hnear & Hmin).
  { destruct (resolve_Ok_inv _ _ _ _ _ Hr) as [[Hm ->] | (Hm & Hlen & -> & ->)].
    - apply match_Some_inv in Hm as (Hne & dis & Hs & Hle).
      pose proof (search_Ok_width _ _ _ Hs) as Hlen.
      destruct (search_nearest _ _ Hlen Hne)
        as (dis' & slot' & Hs' & (x & Hx & ->) & Hmin & _).
      rewrite Hs' in Hs. injection Hs as <- <-.
      exists x. split; [done|]. split; [done|].
      intros y Hy. apply list_elem_of_lookup in Hy as [j Hj]. by eapply Hmin.
    - exists e. simpl. pose proof (fvec_L2sqr_self e) as Hself.
      split; [|split].
      + rewrite (inv_next _ HI). by apply list_lookup_middle.
      + lra.
      + intros y _. pose proof (fvec_L2sqr_nonneg e y). lra. }
  exists x. split; [done|]. split; [|by split].
  by rewrite (inv_store _ HI'), list_lookup_imap, Hx.
Qed.

Lemma returned_identity_is_near_witness :
  exists x,
    IndexFlatL2.xb (index one_person) !! 0 = Some x /\
    (IndexFlatL2.fvec_L2sqr (padded [1 # 10]) x <= default_threshold)%Q.
Proof.
  destruct (returned_identity_is_near one_person (padded [1 # 10])
              default_threshold one_person 0)
    as (x & Hx & _ & Hle & _).
  - eapply rtc_l; [by exists origin, default_threshold, 0|]. apply rtc_refl.
  - by vm_compute.
  - by vm_compute.
  - by exists x.
Defined.

(** X10. No duplicate under a match: in a session, when some indexed vector
    is within the threshold of an embedding of the configured width, the
    call mints nothing; it returns a slot of the index and leaves the
    state as it is.  So after a first embedding has been given identity
    0, a second one within the threshold of it is given 0 as well and the
    index keeps its single vector. *)
Theorem near_stored_vector_prevents_minting st e t y :
  reachable st ->
  length e = 512 ->
  y ∈ IndexFlatL2.xb (index st) ->
  (IndexFlatL2.fvec_L2sqr e y <= t)%Q ->
  (exists slot,
     resolve st e t = (st, Ok slot) /\
     slot < IndexFlatL2.ntotal (index st)) /\
  (st = fst (resolve __init__ y t) ->
   resolve st e t = (st, Ok 0) /\ IndexFlatL2.ntotal (index st) = 1).
Proof.
  intros Hreach Hlen Hy Hle. pose proof (reachable_Inv _ Hreach) as HI.
  rewrite <- (inv_dimension _ HI), <- (inv_d _ HI) in Hlen.
  assert (IndexFlatL2.xb (index st) <> []) as Hne
    by (intros E; rewrite E in Hy; by apply not_elem_of_nil in Hy).
  destruct (search_nearest _ _ Hlen Hne)
    as (dis & slot & Hs & (x & Hx & Hd) & Hmin & _).
  apply list_elem_of_lookup in Hy as [j Hj].
  pose proof (Hmin j y Hj) as Hdis.
  assert (resolve st e t = (st, Ok slot)) as Hr.
  { apply resolve_accept. eapply match_accept; [done|exact Hs|lra]. }
  pose proof (lookup_lt_Some _ _ _ Hx) as Hslot.
  split; [by exists slot|].
  intros Hst. unfold resolve in Hst. rewrite match_empty in Hst by done.
  unfold IndexFlatL2.add in Hst. simpl in Hst.
  destruct (length y =? 512) eqn:Ey.
  - assert (IndexFlatL2.ntotal (index st) = 1) as Hone by (by rewrite Hst).
    split; [|done]. rewrite Hr. unfold IndexFlatL2.ntotal in Hone.
    do 2 f_equal. lia.
  - exfalso. apply Hne. by rewrite Hst.
Qed.

Lemma near_stored_vector_prevents_minting_witness :
  resolve one_person (padded [1 # 10]) default_threshold = (one_person, Ok 0).
Proof.
  apply (near_stored_vector_prevents_minting one_person (padded [1 # 10])
           default_threshold origin).
  - eapply rtc_l; [by exists origin, default_threshold, 0|]. apply rtc_refl.
  - reflexivity.
  - apply list_elem_of_singleton. reflexivity.
  - by vm_compute.
  - reflexivity.
Defined.

(** ** The frame pipeline *)

Section PipelineFacts.
Context `{Pipeline.Collaborators}.

Lemma get_reid_embedding_width self crop :
  Inv self ->
  Pipeline.extractor_well_formed ->
  length (Pipeline.get_reid_embedding self crop) = dimension self.
Proof.
  intros HI Hwf. unfold Pipeline.get_reid_embedding.
  destruct (Pipeline.reid_forward crop) as [e|] eqn:E.
  - rewrite (inv_dimension _ HI). by eapply Hwf.
  - apply repeat_length.
Qed.

(** X11. A failed extraction does not abort the frame.  In a session
    [get_reid_embedding] then hands out the zero vector of width 512,
    the resolver gives it an identity, and the next failed extraction is
    given the same identity without a change of state: all crops that
    fail in a row share one label. *)
Theorem failed_extractions_share_identity st crop crop' :
  reachable st ->
  Pipeline.reid_forward crop = None ->
  Pipeline.reid_forward crop' = None ->
  Pipeline.get_reid_embedding st crop = repeat 0%Q 512 /\
  exists st1 id,
    resolve st (Pipeline.get_reid_embedding st crop) default_threshold
      = (st1, Ok id) /\
    resolve st1 (Pipeline.get_reid_embedding st1 crop') default_threshold
      = (st1, Ok id).
Proof.
  intros Hreach Hc Hc'. pose proof (reachable_Inv _ Hreach) as HI.
  unfold Pipeline.get_reid_embedding. rewrite Hc, Hc', (inv_dimension _ HI).
  split; [done|].
  destruct (resolve_returns st (repeat 0%Q 512) default_threshold HI)
    as (st1 & id & Hr & HI1 & _).
  { by rewrite repeat_length, (inv_dimension _ HI). }
  exists st1, id. split; [done|]. rewrite (inv_dimension _ HI1).
  eapply resolve_repeat; [exact HI| |exact Hr]. by vm_compute.
Qed.

Lemma detections_loop_returns self frame detections :
  Pipeline.extractor_well_formed ->
  reachable self ->
  exists self' frame',
    Pipeline.detections_loop self frame detections = ((self', frame'), Ok tt) /\
    reachable self' /\
    next_id self <= next_id self' <= next_id self + length detections.
Proof.
  intros Hwf. revert self frame.
  induction detections as [|[[[[bx1 by1] bx2] by2] track_id] rest IH];
    intros self frame Hreach.
  - exists self, frame. simpl. split; [done|]. split; [done|lia].
  - pose proof (reachable_Inv _ Hreach) as HI. simpl.
    set (person_crop := Pipeline.crop_frame frame _ _ _ _).
    destruct (resolve_returns self (Pipeline.get_reid_embedding self person_crop)
                default_threshold HI
                (get_reid_embedding_width self person_crop HI Hwf))
      as (self1 & id & Hr & _ & _ & Hc).
    rewrite Hr.
    assert (reachable self1) as Hreach1.
    { eapply rtc_r; [exact Hreach|]. by eexists _, _, id. }
    destruct (IH self1
                (Pipeline.putText
                   (Pipeline.rectangle frame
                      (Pipeline.int bx1, Pipeline.int by1)
                      (Pipeline.int bx2, Pipeline.int by2)) id
                   (Pipeline.int bx1, (Pipeline.int by1 - 10)%Z)) Hreach1)
      as (self2 & frame2 & Hloop & Hreach2 & Hb).
    exists self2, frame2. split; [done|]. split; [done|].
    destruct Hc as [[-> _] | [Hn _]]; lia.
Qed.

(** X12. When the network yields vectors of width 512 wherever it succeeds,
    [process_frame] on a state of a session never raises: it returns a
    frame and leaves a state of the session.  A frame without boxes or
    without track ids comes back as it is, with the tracker untouched;
    otherwise at most one identity is minted for each box that is paired
    with a track id. *)
Theorem process_frame_returns self detector frame :
  Pipeline.extractor_well_formed ->
  reachable self ->
  exists self' frame',
    Pipeline.process_frame self detector frame =
      ((self', fst (Pipeline.track detector frame)), Ok frame') /\
    reachable self' /\
    next_id self <= next_id self' /\
    match Boxes.id (snd (Pipeline.track detector frame)) with
    | None => self' = self /\ frame' = frame
    | Some track_ids =>
        next_id self' <=
          next_id self +
          min (length (Boxes.xyxy (snd (Pipeline.track detector frame))))
              (length track_ids) /\
        (Boxes.xyxy (snd (Pipeline.track detector frame)) = [] ->
         self' = self /\ frame' = frame)
    end.
Proof.
  intros Hwf Hreach. unfold Pipeline.process_frame.
  destruct (Pipeline.track detector frame) as [detector' [boxes ids]].
  cbn [fst snd Boxes.xyxy Boxes.id].
  destruct boxes as [|b boxes].
  - exists self, frame. cbn [length Nat.eqb].
    split; [done|]. split; [done|]. split; [done|].
    destruct ids; [split; [lia|done] | done].
  - cbn [length Nat.eqb]. destruct ids as [track_ids|].
    + destruct (detections_loop_returns self frame (zip (b :: boxes) track_ids)
                  Hwf Hreach) as (self' & frame' & Hloop & Hreach' & Hb).
      rewrite Hloop. exists self', frame'.
      rewrite length_zip in Hb. cbn [length] in Hb.
      split; [done|]. split; [done|]. split; [lia|]. split; [lia|done].
    + by exists self, frame.
Qed.

Lemma process_frame_total self detector frame :
  Pipeline.extractor_well_formed ->
  reachable self ->
  exists self' frame',
    Pipeline.process_frame self detector frame =
      ((self', fst (Pipeline.track detector frame)), Ok frame') /\
    reachable self'.
Proof.
  intros Hwf Hreach. unfold Pipeline.process_frame.
  destruct (Pipeline.track detector frame) as [detector' bs]. cbn [fst].
  destruct (length (Boxes.xyxy bs) =? 0); [by exists self, frame|].
  destruct (Boxes.id bs) as [track_ids|]; [|by exists self, frame].
  destruct (detections_loop_returns self frame (zip (Boxes.xyxy bs) track_ids)
              Hwf Hreach) as (self' & frame' & Hloop & Hreach' & _).
  rewrite Hloop. by exists self', frame'.
Qed.

Lemma frames_loop_returns tracker detector frames out :
  Pipeline.extractor_well_formed ->
  reachable tracker ->
  Pipeline.frame_count out = length (Pipeline.written out) ->
  (forall i f, (i, f) ∈ Pipeline.displayed out ->
               Pipeline.written out !! i = Some f) ->
  exists out',
    Pipeline.frames_loop tracker detector frames out = Ok out' /\
    length (Pipeline.written out') =
      length (Pipeline.written out) + length frames /\
    Pipeline.frame_count out' = length (Pipeline.written out') /\
    (Pipeline.displayed out').*1 =
      (Pipeline.displayed out).*1 ++
      filter (fun i => i mod 50 = 0)
        (seq (Pipeline.frame_count out) (length frames)) /\
    (forall i f, (i, f) ∈ Pipeline.displayed out' ->
                 Pipeline.written out' !! i = Some f).
Proof.
  intros Hwf. revert tracker detector out.
  induction frames as [|frame rest IH]; intros tracker detector out Hreach Hn Hd.
  - exists out. simpl. rewrite app_nil_r. repeat split; try done; lia.
  - cbn [Pipeline.frames_loop].
    destruct (process_frame_total tracker detector frame Hwf Hreach)
      as (tracker' & processed & Hp & Hreach').
    rewrite Hp.
    set (out1 := Pipeline.mkOutput _ _ _ _).
    destruct (IH tracker' (Pipeline.track detector frame).1 out1 Hreach')
      as (out' & Hloop & Hlen & Hcount & Hdisp & Hlook).
    { unfold out1. cbn [Pipeline.written Pipeline.displayed Pipeline.frame_count]. rewrite length_app. simpl. lia. }
    { unfold out1. cbn [Pipeline.written Pipeline.displayed Pipeline.frame_count]. intros i f Hin.
      destruct (Pipeline.frame_count out mod 50 =? 0).
      - apply elem_of_app in Hin as [Hin | Hin].
        + apply lookup_app_l_Some. by apply Hd.
        + apply list_elem_of_singleton in Hin. injection Hin as -> ->.
          rewrite Hn. by rewrite list_lookup_middle.
      - apply lookup_app_l_Some. by apply Hd. }
    exists out'. split; [done|].
    unfold out1 in Hlen, Hdisp. cbn [Pipeline.written Pipeline.displayed Pipeline.frame_count] in Hlen, Hdisp.
    rewrite length_app in Hlen. cbn [length] in Hlen.
    split; [cbn [length]; lia|]. split; [done|]. split; [|done].
    rewrite Hdisp. cbn [length seq].
    replace (Pipeline.frame_count out + 1) with (S (Pipeline.frame_count out))
      by lia.
    destruct (Pipeline.frame_count out mod 50 =? 0) eqn:E.
    + apply Nat.eqb_eq in E. rewrite filter_cons_True by done.
      rewrite fmap_app. simpl. by rewrite <- app_assoc.
    + apply Nat.eqb_neq in E. by rewrite filter_cons_False by done.
Qed.

(** X13. A video that cannot be opened produces nothing.  For one that
    opens, when the network yields vectors of width 512 wherever it
    succeeds, [process_video] raises nothing and writes exactly one frame
    for every frame it reads; [frame_count] ends at the number of frames;
    the frames displayed are those numbered 0, 50, 100, ..., each as it
    was written; and [display_sample_frame] on the output finds a frame
    exactly when the video has more than 100 frames. *)
Theorem process_video_output frames :
  Pipeline.extractor_well_formed ->
  Pipeline.process_video false frames = None /\
  exists out,
    Pipeline.process_video true frames = Some (Ok out) /\
    length (Pipeline.written out) = length frames /\
    Pipeline.frame_count out = length frames /\
    (Pipeline.displayed out).*1 =
      filter (fun i => i mod 50 = 0) (seq 0 (length frames)) /\
    (forall i f, (i, f) ∈ Pipeline.displayed out ->
                 Pipeline.written out !! i = Some f) /\
    (Pipeline.display_sample_frame (Pipeline.written out) = None <->
     length frames <= 100).
Proof.
  intros Hwf. split; [done|]. unfold Pipeline.process_video. simpl.
  destruct (frames_loop_returns __init__ Pipeline.detector_init frames
              (Pipeline.mkOutput _ [] [] 0) Hwf (rtc_refl _ _))
    as (out & Hloop & Hlen & Hcount & Hdisp & Hlook).
  { done. }
  { intros i f Hin. by apply elem_of_nil in Hin. }
  cbn [Pipeline.written Pipeline.displayed Pipeline.frame_count] in Hlen, Hdisp. cbn [length fmap list_fmap app] in Hlen, Hdisp.
  exists out. rewrite Hloop.
  split; [done|]. split; [done|]. split; [lia|]. split; [done|].
  split; [done|].
  unfold Pipeline.display_sample_frame. rewrite lookup_ge_None. lia.
Qed.

Lemma resolve_malformed_raises st e t :
  Inv st ->
  length e <> dimension st ->
  snd (resolve st e t) = Raise MalformedEmbedding.
Proof.
  intros HI Hlen. rewrite <- (inv_d _ HI) in Hlen.
  apply Nat.eqb_neq in Hlen. unfold resolve.
  destruct (IndexFlatL2.xb (index st)) as [|x0 xs] eqn:E.
  - rewrite match_empty by done. unfold IndexFlatL2.add. simpl.
    by rewrite Hlen.
  - rewrite match_nonempty by (by rewrite E).
    unfold IndexFlatL2.search. by rewrite Hlen.
Qed.

(** X14. Nothing in the pipeline catches the failure of the index.  When
    the network returns, for the first detection of a frame, a vector
    whose width is not 512, [process_frame] raises [MalformedEmbedding]
    on that frame, the loop of [process_video] ends with the same error
    whatever frames follow, and a video whose first frame is of this kind
    yields the error instead of an output. *)
Theorem malformed_network_output_aborts self detector frame
    bx1 by1 bx2 by2 boxes track_id track_ids e rest out :
  reachable self ->
  snd (Pipeline.track detector frame) =
    {| Boxes.xyxy := (bx1, by1, bx2, by2) :: boxes;
       Boxes.id := Some (track_id :: track_ids) |} ->
  Pipeline.reid_forward
    (Pipeline.crop_frame frame (Pipeline.int bx1) (Pipeline.int by1)
       (Pipeline.int bx2) (Pipeline.int by2)) = Some e ->
  length e <> 512 ->
  snd (Pipeline.process_frame self detector frame) = Raise MalformedEmbedding /\
  Pipeline.frames_loop self detector (frame :: rest) out
    = Raise MalformedEmbedding /\
  (self = __init__ -> detector = Pipeline.detector_init ->
   Pipeline.process_video true (frame :: rest) = Some (Raise MalformedEmbedding)).
Proof.
  intros Hreach Htrack Hnet Hlen. pose proof (reachable_Inv _ Hreach) as HI.
  assert (snd (Pipeline.process_frame self detector frame)
          = Raise MalformedEmbedding) as Hp.
  { unfold Pipeline.process_frame.
    destruct (Pipeline.track detector frame) as [detector' bs].
    simpl in Htrack. subst bs. cbn [Boxes.xyxy Boxes.id length Nat.eqb zip zip_with].
    cbn [Pipeline.detections_loop].
    unfold Pipeline.get_reid_embedding at 1. rewrite Hnet.
    pose proof (resolve_malformed_raises self e default_threshold HI) as Hr.
    rewrite (inv_dimension _ HI) in Hr. specialize (Hr Hlen).
    destruct (resolve self e default_threshold) as [self' [id|x]];
      simpl in Hr; [done|]. by destruct x. }
  assert (forall o, Pipeline.frames_loop self detector (frame :: rest) o
                    = Raise MalformedEmbedding) as Hloop.
  { intros o. cbn [Pipeline.frames_loop].
    destruct (Pipeline.process_frame self detector frame) as [[s' d'] [f|x]];
      simpl in Hp; [done|]. by destruct x. }
  split; [done|]. split; [apply Hloop|].
  intros -> ->. unfold Pipeline.process_video. simpl negb. cbv iota.
  by rewrite Hloop.
Qed.

Lemma detections_loop_at self frame detections self' frame' :
  Pipeline.detections_loop self frame detections = ((self', frame'), Ok tt) ->
  reachable_at default_threshold self ->
  reachable_at default_threshold self'.
Proof.
  revert self frame.
  induction detections as [|[[[[bx1 by1] bx2] by2] track_id] rest IH];
    intros self frame Hloop Hreach.
  - simpl in Hloop. by injection Hloop as <- _.
  - cbn [Pipeline.detections_loop] in Hloop.
    destruct (resolve self _ default_threshold) as [self1 [id|x]] eqn:Hr;
      [|done].
    eapply IH; [exact Hloop|].
    eapply rtc_r; [exact Hreach|]. by eexists _, id.
Qed.

(** X15. [process_frame] always matches with the default threshold, so
    whatever the detector and the network deliver, a frame that is
    processed without an exception keeps the tracker in a session at 0.7:
    afterwards any two vectors of the index are more than 0.7 apart. *)
Theorem process_frame_keeps_separation self detector frame self' detector'
    frame' i j x y :
  reachable_at default_threshold self ->
  Pipeline.process_frame self detector frame = ((self', detector'), Ok frame') ->
  i <> j ->
  IndexFlatL2.xb (index self') !! i = Some x ->
  IndexFlatL2.xb (index self') !! j = Some y ->
  reachable_at default_threshold self' /\
  (7 # 10 < IndexFlatL2.fvec_L2sqr x y)%Q.
Proof.
  intros Hreach Hp Hij Hx Hy.
  assert (reachable_at default_threshold self') as Hreach'.
  { unfold Pipeline.process_frame in Hp.
    destruct (Pipeline.track detector frame) as [det1 bs].
    destruct (length (Boxes.xyxy bs) =? 0); [by injection Hp as <- _ _|].
    destruct (Boxes.id bs) as [track_ids|]; [|by injection Hp as <- _ _].
    destruct (Pipeline.detections_loop self frame (zip (Boxes.xyxy bs) track_ids))
      as [[self1 frame1] [[]|x0]] eqn:Hloop; [|done].
    injection Hp as <- _ _. by eapply detections_loop_at. }
  split; [done|].
  destruct (Nat.lt_trichotomy i j) as [Hlt | [-> | Hlt]]; [|done|].
  - rewrite fvec_L2sqr_sym.
    by apply (reachable_at_far default_threshold self' i j x y).
  - by apply (reachable_at_far default_threshold self' j i y x).
Qed.

End PipelineFacts.

Lemma failed_extractions_share_identity_witness :
  exists st1 id,
    resolve __init__
      (@Pipeline.get_reid_embedding Pipeline.blind_camera __init__ tt)
      default_threshold = (st1, Ok id).
Proof.
  destruct (@failed_extractions_share_identity Pipeline.blind_camera
              __init__ tt tt (rtc_refl _ _) eq_refl eq_refl)
    as (_ & st1 & id & H & _).
  by exists st1, id.
Defined.

Lemma process_frame_returns_witness :
  exists self' frame',
    @Pipeline.process_frame Pipeline.blind_camera __init__ tt [] =
      ((self', tt), Ok frame').
Proof.
  destruct (@process_frame_returns Pipeline.blind_camera __init__ tt [])
    as (self' & frame' & H & _).
  - intros crop e Hsome. discriminate Hsome.
  - apply rtc_refl.
  - by exists self', frame'.
Defined.

Lemma process_video_output_witness :
  exists out,
    @Pipeline.process_video Pipeline.blind_camera true [[]; [7]; []] =
      Some (Ok out) /\
    length (Pipeline.written out) = 3.
Proof.
  destruct (@process_video_output Pipeline.blind_camera [[]; [7]; []])
    as (_ & out & H & Hlen & _).
  - intros crop e Hsome. discriminate Hsome.
  - by exists out.
Defined.

Lemma malformed_network_output_aborts_witness :
  @Pipeline.process_video Pipeline.narrow_camera true [[]; [7]]
    = Some (Raise MalformedEmbedding).
Proof.
  apply (@malformed_network_output_aborts Pipeline.narrow_camera __init__ tt []
           0%Q 0%Q 10%Q 20%Q [] 1%Q [] [1%Q] [[7]]
           (Pipeline.mkOutput Pipeline.narrow_camera [] [] 0)
           (rtc_refl _ _) eq_refl eq_refl).
  - simpl. lia.
  - reflexivity.
  - reflexivity.
Defined.

Lemma process_frame_keeps_separation_witness :
  reachable_at default_threshold
    (fst (fst (@Pipeline.process_frame Pipeline.blind_camera
                 (fst (run __init__ default_threshold
                         [padded [5%Q]])) tt []))).
Proof.
  apply (@process_frame_keeps_separation Pipeline.blind_camera
           (fst (run __init__ default_threshold [padded [5%Q]])) tt []
           (fst (fst (@Pipeline.process_frame Pipeline.blind_camera
                        (fst (run __init__ default_threshold
                                [padded [5%Q]])) tt [])))
           tt [1] 0 1 (padded [5%Q]) (repeat 0%Q 512)).
  - eapply rtc_l; [by exists (padded [5%Q]), 0|]. apply rtc_refl.
  - by vm_compute.
  - lia.
  - by vm_compute.
  - by vm_compute.
Defined.
